(** * Batch swap settlement of the liquidity module

    A shallow embedding of [x/liquidity/keeper/swap.go] ([SwapExecution],
    [UpdateState]) and [x/liquidity/keeper/grpc_query.go] (the gRPC query
    handlers), with the properties the specification states about them.

    Conventions.
    - A Go panic is the [Panic] outcome of the [res] monad; nothing is
      observable after it.
    - [*types.SwapMsgState] values are addresses into a heap of order
      states, so that every alias of an order sees every write to it.
    - [sdk.Int] and [sdk.Dec] are [math/big] integers: they are embedded as
      [Z], a [Dec] being its numerator over [10^18].  The SDK refuses
      results wider than 255 bits and denominations that fail its syntax
      check; amounts are taken inside that range and the denominations of
      stored coins well formed, so these two panics do not appear. *)

From Stdlib Require Import ZArith NArith Lia.
From Stdlib Require DecimalString.
From stdpp Require Import base option list sorting gmap strings.

Local Open Scope string_scope.
Local Open Scope list_scope.
Local Open Scope Z_scope.

(** ** Panics and results *)

Inductive GrpcCode := InvalidArgument | NotFound.

Inductive error :=
| ErrPoolNotExists
| ErrOrderBookInvalidity
| StatusError (code : GrpcCode) (msg : string)
| BankError (msg : string).

Inductive panic_value :=
| PanicMsg (msg : string)
| PanicErr (e : error)
| RuntimeError (msg : string).

Inductive res (A : Type) :=
| Ok (a : A)
| Panic (p : panic_value).
Arguments Ok {A} a.
Arguments Panic {A} p.

#[global] Instance res_ret : MRet res := fun _ a => Ok a.
#[global] Instance res_bind : MBind res := fun _ _ k r =>
  match r with
  | Ok a => k a
  | Panic p => Panic p
  end.

Definition is_Panic {A} (r : res A) : Prop := ∃ p, r = Panic p.

(** [for _, x := range xs { acc = body(acc, x) }], stopping at a panic. *)
Fixpoint forRange {S A} (body : S → A → res S) (acc : S) (xs : list A)
  : res S :=
  match xs with
  | [] => Ok acc
  | x :: xs' => acc' ← body acc x; forRange body acc' xs'
  end.

Definition nilDeref : panic_value :=
  RuntimeError "invalid memory address or nil pointer dereference".

(** ** The SDK's numbers and coins *)

Module sdk.

Abbreviation Int := Z (only parsing).
Abbreviation Dec := Z (only parsing).

Definition precisionReuse : Z := 10 ^ 18.
Definition fivePrecision : Z := 5 * 10 ^ 17.

Definition ZeroInt : Int := 0.
Definition OneInt : Int := 1.
Definition NewInt (n : Z) : Int := n.
Definition ZeroDec : Dec := 0.
Definition OneDec : Dec := precisionReuse.

(** [Int.ToDec]: the integer as a decimal with no fractional digit. *)
Definition ToDec (i : Int) : Dec := i * precisionReuse.

(** [Dec.TruncateInt]: [big.Int.Quo], which rounds toward zero. *)
Definition TruncateInt (d : Dec) : Int := Z.quot d precisionReuse.

Definition DecAdd (a b : Dec) : Dec := a + b.
Definition DecSub (a b : Dec) : Dec := a - b.
Definition DecEqual (a b : Dec) : bool := a =? b.
Definition DecGT (a b : Dec) : bool := a >? b.
Definition DecLT (a b : Dec) : bool := a <? b.

Definition IntAdd (a b : Int) : Int := a + b.
Definition IntEqual (a b : Int) : bool := a =? b.
Definition IntGT (a b : Int) : bool := a >? b.
Definition IntLT (a b : Int) : bool := a <? b.

(** [chopPrecisionAndRound]: drop 18 digits, half to even. *)
Definition chopRoundNonneg (d : Z) : Z :=
  let quo := Z.quot d precisionReuse in
  let rem := Z.rem d precisionReuse in
  if rem =? 0 then quo
  else match rem ?= fivePrecision with
       | Lt => quo
       | Gt => quo + 1
       | Eq => if Z.even quo then quo else quo + 1
       end.

Definition chopPrecisionAndRound (d : Z) : Z :=
  if d <? 0 then - chopRoundNonneg (- d) else chopRoundNonneg d.

(** [Dec.Mul]: the product, rounded half to even. *)
Definition DecMul (a b : Dec) : Dec := chopPrecisionAndRound (a * b).

(** [Dec.Quo]; [big.Int.Quo] panics on a zero divisor. *)
Definition DecQuo (a b : Dec) : res Dec :=
  if b =? 0 then Panic (RuntimeError "division by zero")
  else Ok (chopPrecisionAndRound
             (Z.quot (a * precisionReuse * precisionReuse) b)).

Record Coin := mkCoin { Denom : string; Amount : Int }.

#[global] Instance Coin_eq_dec : EqDecision Coin.
Proof. solve_decision. Defined.

(** [sdk.NewCoin]: panics on a negative amount. *)
Definition NewCoin (denom : string) (amount : Int) : res Coin :=
  if amount <? 0 then Panic (PanicMsg "negative coin amount")
  else Ok (mkCoin denom amount).

(** [Coin.Add]: panics when the denominations differ. *)
Definition CoinAdd (a b : Coin) : res Coin :=
  if String.eqb (Denom a) (Denom b)
  then Ok (mkCoin (Denom a) (IntAdd (Amount a) (Amount b)))
  else Panic (PanicMsg "invalid coin denominations").

(** [Coin.Equal]: both fields equal. *)
Definition CoinEqual (a b : Coin) : bool :=
  String.eqb (Denom a) (Denom b) && IntEqual (Amount a) (Amount b).

(** [Coin.IsGTE]: panics when the denominations differ. *)
Definition CoinIsGTE (a b : Coin) : res bool :=
  if String.eqb (Denom a) (Denom b)
  then Ok (negb (IntLT (Amount a) (Amount b)))
  else Panic (PanicMsg "invalid coin denominations").

End sdk.

Import sdk.

(** ** The order states of package [types] *)

Record MsgSwap := mkMsgSwap {
  OfferCoin : Coin;
  DemandCoinDenom : string;
  OrderPrice : Z
}.

Record SwapMsgState := mkSwapMsgState {
  MsgIndex : N;
  Executed : bool;
  Succeeded : bool;
  ToBeDeleted : bool;
  OrderExpiryHeight : Z;
  ExchangedOfferCoin : Coin;
  RemainingOfferCoin : Coin;
  ReservedOfferCoinFee : Coin;
  Msg : MsgSwap
}.

(** A [*types.SwapMsgState]: an address of the heap below. *)
Abbreviation ptr := nat (only parsing).
Abbreviation Heap := (list SwapMsgState) (only parsing).

Definition deref (h : Heap) (p : ptr) : res SwapMsgState :=
  match h !! p with
  | Some s => Ok s
  | None => Panic nilDeref
  end.

Record MatchResult := mkMatchResult {
  OrderMsgIndex : N;
  TransactedCoinAmt : Z;
  ExchangedDemandCoinAmt : Z;
  OfferCoinFeeAmt : Z;
  BatchMsg : ptr
}.

Definition setExecuted (b : bool) (s : SwapMsgState) : SwapMsgState :=
  mkSwapMsgState (MsgIndex s) b (Succeeded s) (ToBeDeleted s)
    (OrderExpiryHeight s) (ExchangedOfferCoin s) (RemainingOfferCoin s)
    (ReservedOfferCoinFee s) (Msg s).

(** The writes of one branch of [UpdateState] to [*match.BatchMsg]. *)
Definition settled (s : SwapMsgState) (exchanged remaining fee : Coin)
    (toBeDeleted : bool) : SwapMsgState :=
  mkSwapMsgState (MsgIndex s) (Executed s) true toBeDeleted
    (OrderExpiryHeight s) exchanged remaining fee (Msg s).

(** Modelled from the spec: [types.CoinSafeSubAmount], which is declared
    outside the files of the keeper; it is the safe-sub-amount variant of
    coin subtraction that clamps at zero instead of failing on a negative
    result. *)
Definition CoinSafeSubAmount (coinA : Coin) (coinBamt : Z) : Coin :=
  mkCoin (Denom coinA) (Z.max 0 (Amount coinA - coinBamt)).

(** ** [UpdateState] (swap.go, lines 114-246) *)

(** The variables of the two loops, with the heap the matches point
    into. *)
Record Settlement := mkSettlement {
  heap : Heap;
  poolXdelta : Z;
  poolYdelta : Z;
  matchedIndexMapXtoY : gmap N Coin;
  matchedIndexMapYtoX : gmap N Coin;
  fractionalCntX : Z;
  fractionalCntY : Z;
  decimalErrorX : Z;
  decimalErrorY : Z
}.

(** [sort.SliceStable]: the stable sorted permutation, by insertion. *)
Fixpoint insertStable {A} (less : A → A → bool) (x : A) (l : list A)
  : list A :=
  match l with
  | [] => [x]
  | y :: l' => if less y x then y :: insertStable less x l' else x :: l
  end.

Definition SliceStable {A} (less : A → A → bool) (l : list A) : list A :=
  foldr (insertStable less) [] l.

(** Lines 116-121: the comparison reads [OrderPrice] through the
    pointers; a slice shorter than two is never compared. *)
Definition sortByOrderPrice (less : Z → Z → bool) (h : Heap)
    (l : list ptr) : res (list ptr) :=
  if (length l <? 2)%nat then Ok l
  else
    keyed ← mapM (fun p => s ← deref h p; Ok (p, OrderPrice (Msg s))) l;
    Ok ((SliceStable (fun a b => less a.2 b.2) keyed).*1).

(** Lines 137-138 and 188-189. *)
Definition isFullMatch (s : SwapMsgState) (m : MatchResult) : bool :=
  DecEqual (ToDec (Amount (OfferCoin (Msg s)))) (TransactedCoinAmt m)
  || DecEqual (ToDec (Amount (RemainingOfferCoin s))) (TransactedCoinAmt m).

(** Lines 154-155 and 204-205. *)
Definition isOffByOne (s : SwapMsgState) (m : MatchResult) : bool :=
  DecEqual (DecSub (ToDec (Amount (OfferCoin (Msg s)))) (TransactedCoinAmt m))
    OneDec
  || DecEqual
       (DecSub (ToDec (Amount (RemainingOfferCoin s))) (TransactedCoinAmt m))
       OneDec.

Inductive MatchClass := FullMatch | OffByOneDecimal | FractionalMatch.

(** The branch of the [if / else if / else] a match result takes. *)
Definition classify (s : SwapMsgState) (m : MatchResult) : MatchClass :=
  if isFullMatch s m then FullMatch
  else if isOffByOne s m then OffByOneDecimal
  else FractionalMatch.

(** The condition of the panics "remaining not matched 1" to "4"
    (lines 145-148, 165-168, 195-198, 217-220). *)
Definition remainingNotMatched (offer exchanged remaining fee : Coin)
  : res bool :=
  if IntGT (IntAdd (Amount remaining) (Amount exchanged)) (Amount offer)
  then Ok true
  else
    zero ← NewCoin (Denom offer) ZeroInt;
    if negb (CoinEqual remaining zero) then Ok true
    else
      two ← NewCoin (Denom fee) (NewInt 2);
      CoinIsGTE fee two.

(** The full-match branch (lines 140-153, 191-203). *)
Definition fullMatch (msg : string) (s : SwapMsgState) (m : MatchResult)
  : res SwapMsgState :=
  c ← NewCoin (Denom (RemainingOfferCoin s))
        (TruncateInt (TransactedCoinAmt m));
  exchanged ← CoinAdd (ExchangedOfferCoin s) c;
  let remaining :=
    CoinSafeSubAmount (RemainingOfferCoin s)
      (TruncateInt (TransactedCoinAmt m)) in
  let fee :=
    CoinSafeSubAmount (ReservedOfferCoinFee s)
      (TruncateInt (OfferCoinFeeAmt m)) in
  bad ← remainingNotMatched (OfferCoin (Msg s)) exchanged remaining fee;
  if bad : bool then Panic (PanicMsg msg)
  else Ok (settled s exchanged remaining fee true).

(** The off-by-one branch without its decimal error
    (lines 158-173, 208-225). *)
Definition offByOneMatch (msg : string) (s : SwapMsgState) (m : MatchResult)
  : res SwapMsgState :=
  c ← NewCoin (Denom (RemainingOfferCoin s))
        (TruncateInt (TransactedCoinAmt m));
  exchanged ← CoinAdd (ExchangedOfferCoin s) c;
  let remaining :=
    CoinSafeSubAmount (RemainingOfferCoin s)
      (TruncateInt (TransactedCoinAmt m)) in
  let fee :=
    CoinSafeSubAmount (ReservedOfferCoinFee s)
      (TruncateInt (OfferCoinFeeAmt m)) in
  let remaining :=
    if IntEqual (Amount remaining) OneInt
    then mkCoin (Denom remaining) ZeroInt
    else remaining in
  bad ← remainingNotMatched (OfferCoin (Msg s)) exchanged remaining fee;
  if bad : bool then Panic (PanicMsg msg)
  else Ok (settled s exchanged remaining fee true).

(** The fractional branch without its counters (lines 176-181, 228-233). *)
Definition fractionalMatch (s : SwapMsgState) (m : MatchResult)
  : res SwapMsgState :=
  c ← NewCoin (Denom (OfferCoin (Msg s)))
        (TruncateInt (TransactedCoinAmt m));
  exchanged ← CoinAdd (ExchangedOfferCoin s) c;
  let remaining :=
    CoinSafeSubAmount (RemainingOfferCoin s)
      (TruncateInt (TransactedCoinAmt m)) in
  let fee :=
    CoinSafeSubAmount (ReservedOfferCoinFee s)
      (TruncateInt (OfferCoinFeeAmt m)) in
  Ok (settled s exchanged remaining fee false).

(** The body of the loop over [matchResultXtoY] (lines 135-183). *)
Definition settleXtoY (st : Settlement) (m : MatchResult)
  : res Settlement :=
  let dx := DecAdd (poolXdelta st) (TransactedCoinAmt m) in
  let dy := DecSub (poolYdelta st) (ExchangedDemandCoinAmt m) in
  s ← deref (heap st) (BatchMsg m);
  if isFullMatch s m then
    s' ← fullMatch "remaining not matched 1" s m;
    Ok (mkSettlement (<[BatchMsg m := s']> (heap st)) dx dy
          (matchedIndexMapXtoY st) (matchedIndexMapYtoX st)
          (fractionalCntX st) (fractionalCntY st)
          (decimalErrorX st) (decimalErrorY st))
  else if isOffByOne s m then
    s' ← offByOneMatch "remaining not matched 2" s m;
    Ok (mkSettlement (<[BatchMsg m := s']> (heap st)) dx dy
          (matchedIndexMapXtoY st) (matchedIndexMapYtoX st)
          (fractionalCntX st) (fractionalCntY st)
          (DecAdd (decimalErrorX st) OneDec) (decimalErrorY st))
  else
    s' ← fractionalMatch s m;
    Ok (mkSettlement (<[BatchMsg m := s']> (heap st)) dx dy
          (<[MsgIndex s' := RemainingOfferCoin s']> (matchedIndexMapXtoY st))
          (matchedIndexMapYtoX st)
          (fractionalCntX st + 1) (fractionalCntY st)
          (decimalErrorX st) (decimalErrorY st)).

(** The body of the loop over [matchResultYtoX] (lines 186-235). *)
Definition settleYtoX (st : Settlement) (m : MatchResult)
  : res Settlement :=
  let dx := DecSub (poolXdelta st) (ExchangedDemandCoinAmt m) in
  let dy := DecAdd (poolYdelta st) (TransactedCoinAmt m) in
  s ← deref (heap st) (BatchMsg m);
  if isFullMatch s m then
    s' ← fullMatch "remaining not matched 3" s m;
    Ok (mkSettlement (<[BatchMsg m := s']> (heap st)) dx dy
          (matchedIndexMapXtoY st) (matchedIndexMapYtoX st)
          (fractionalCntX st) (fractionalCntY st)
          (decimalErrorX st) (decimalErrorY st))
  else if isOffByOne s m then
    s' ← offByOneMatch "remaining not matched 4" s m;
    Ok (mkSettlement (<[BatchMsg m := s']> (heap st)) dx dy
          (matchedIndexMapXtoY st) (matchedIndexMapYtoX st)
          (fractionalCntX st) (fractionalCntY st)
          (decimalErrorX st) (DecAdd (decimalErrorY st) OneDec))
  else
    s' ← fractionalMatch s m;
    Ok (mkSettlement (<[BatchMsg m := s']> (heap st)) dx dy
          (matchedIndexMapXtoY st)
          (<[MsgIndex s' := RemainingOfferCoin s']> (matchedIndexMapYtoX st))
          (fractionalCntX st) (fractionalCntY st + 1)
          (decimalErrorX st) (decimalErrorY st)).

(** Lines 123-132. *)
Definition initSettlement (h : Heap) : Settlement :=
  mkSettlement h ZeroDec ZeroDec ∅ ∅ 0 0 ZeroDec ZeroDec.

(** The values [UpdateState] returns, in the order of its signature, and
    the heap its writes leave. *)
Record Updated := mkUpdated {
  uXtoY : list ptr;
  uYtoX : list ptr;
  uX : Z;
  uY : Z;
  uPoolXdelta : Z;
  uPoolYdelta : Z;
  uFractionalCntX : Z;
  uFractionalCntY : Z;
  uDecimalErrorX : Z;
  uDecimalErrorY : Z;
  uHeap : Heap
}.

Definition UpdateState (X Y : Z) (XtoY YtoX : list ptr)
    (matchResultXtoY matchResultYtoX : list MatchResult) (h : Heap)
  : res Updated :=
  XtoY ← sortByOrderPrice DecGT h XtoY;
  YtoX ← sortByOrderPrice DecLT h YtoX;
  st ← forRange settleXtoY (initSettlement h) matchResultXtoY;
  st ← forRange settleYtoX st matchResultYtoX;
  let poolXdelta := DecAdd (poolXdelta st) (decimalErrorX st) in
  let poolYdelta := DecAdd (poolYdelta st) (decimalErrorY st) in
  let X := DecAdd X poolXdelta in
  let Y := DecAdd Y poolYdelta in
  Ok (mkUpdated XtoY YtoX X Y poolXdelta poolYdelta
        (fractionalCntX st) (fractionalCntY st)
        (decimalErrorX st) (decimalErrorY st) (heap st)).

(** ** The collaborators of [SwapExecution]

    Everything [swap.go] calls but does not define: the keeper's store
    accessors, the order book and matcher of package [types], the
    invariant checkers and the constants.  They are the parameters of the
    development; every theorem holds for each implementation of them.

    A [Ctx] is an [sdk.Context] with the state of the store behind it: an
    accessor that writes returns the context after the write.  The functions
    of package [types] receive no context: they see the order states only
    through the pointers they are given, and can only read or write the
    heap. *)

Inductive Direction := DirectionXtoY | DirectionYtoX.

Record BatchResult := mkBatchResult {
  MatchType : Z;
  SwapPrice : Z;
  EX : Z;
  EY : Z;
  PoolXDelta : Z;
  PoolYDelta : Z
}.

Class Collaborators := {
  Ctx : Type;
  Pool : Type;
  PoolBatch : Type;
  OrderMap : Type;
  OrderBook : Type;
  Id : Pool → N;
  PoolId : PoolBatch → N;
  NoMatch : Z;
  invariantCheckFlag : bool;
  BlockHeight : Ctx → Z;
  GetAllNotProcessedPoolBatchSwapMsgStates :
    Ctx → PoolBatch → list SwapMsgState;
  GetPool : Ctx → N → Pool * bool;
  SetPoolBatchSwapMsgStatesByPointer : Ctx → N → list SwapMsgState → Ctx;
  GetReserveCoins : Ctx → Pool → list Coin;
  TransactAndRefundSwapLiquidityPool :
    Ctx → list ptr → gmap N MatchResult → Pool → BatchResult → Heap →
    res (Ctx * option error);
  ValidateStateAndExpireOrders :
    list ptr → Z → bool → Heap → res Heap;
  MakeOrderMap :
    list ptr → string → string → bool → Heap →
    res (OrderMap * list ptr * list ptr);
  SortOrderBook : OrderMap → OrderBook;
  Match : OrderBook → Z → Z → res BatchResult;
  Validate : OrderBook → Z → bool;
  FindOrderMatch :
    Direction → list ptr → Z → Z → Z → Heap →
    res (list MatchResult * Z * Z * Z);
  SwapPriceInvariants :
    list ptr → list ptr → list MatchResult → list MatchResult →
    Z → Z → Z → Z → Z → Z → Z → Z → BatchResult → Heap → res unit;
  OrdersWithExecutedAndNotExecutedStateInvariants :
    list MatchResult → list MatchResult → gmap N MatchResult → list ptr →
    list ptr → list ptr → BatchResult → Z → string → Heap → res unit
}.

(** ** [SwapExecution] (swap.go, lines 12-111) *)

(** [xs[i]] on a slice: a run-time panic out of range. *)
Definition index {A} (xs : list A) (i : nat) : res A :=
  match xs !! i with
  | Some x => Ok x
  | None => Panic (RuntimeError "index out of range")
  end.

(** The body of the loop of lines 93-98. *)
Definition indexMatch (matchResultMap : gmap N MatchResult)
    (msg : MatchResult) : res (gmap N MatchResult) :=
  match matchResultMap !! OrderMsgIndex msg with
  | Some _ => Panic (PanicMsg "duplicated match order")
  | None => Ok (<[OrderMsgIndex msg := msg]> matchResultMap)
  end.

(** The local variables at line 63, where matching is over. *)
Record Matched (C P : Type) := mkMatched {
  ctx1 : C;
  pool : P;
  swapMsgStates : list ptr;
  heap1 : Heap;
  currentHeight : Z;
  X : Z;
  Y : Z;
  currentPoolPrice : Z;
  denomX : string;
  denomY : string;
  XtoY : list ptr;
  YtoX : list ptr;
  batchResult : BatchResult;
  matchResultXtoY : list MatchResult;
  matchResultYtoX : list MatchResult;
  poolXdelta1 : Z;
  poolYdelta1 : Z;
  executedMsgCount : N
}.
Arguments mkMatched {C P}.
Arguments ctx1 {C P}.
Arguments pool {C P}.
Arguments swapMsgStates {C P}.
Arguments heap1 {C P}.
Arguments currentHeight {C P}.
Arguments X {C P}.
Arguments Y {C P}.
Arguments currentPoolPrice {C P}.
Arguments denomX {C P}.
Arguments denomY {C P}.
Arguments XtoY {C P}.
Arguments YtoX {C P}.
Arguments batchResult {C P}.
Arguments matchResultXtoY {C P}.
Arguments matchResultYtoX {C P}.
Arguments poolXdelta1 {C P}.
Arguments poolYdelta1 {C P}.
Arguments executedMsgCount {C P}.

(** What lines 12-63 end in: one of the two early returns, or the matched
    batch. *)
Inductive Matching (C P : Type) :=
| Return (n : N) (err : option error) (ctx : C)
| Continue (L : Matched C P).
Arguments Return {C P}.
Arguments Continue {C P}.

Section SwapExecution.
Context `{K : Collaborators}.

(** Lines 55-61. *)
Definition findOrderMatches (result : BatchResult) (XtoY YtoX : list ptr)
    (currentHeight : Z) (h : Heap)
  : res (list MatchResult * list MatchResult * Z * Z) :=
  if negb (MatchType result =? NoMatch) then
    '(matchResultXtoY, _, poolXDeltaXtoY, poolYDeltaXtoY) ←
      FindOrderMatch DirectionXtoY XtoY (EX result) (SwapPrice result)
        currentHeight h;
    '(matchResultYtoX, _, poolXDeltaYtoX, poolYDeltaYtoX) ←
      FindOrderMatch DirectionYtoX YtoX (EY result) (SwapPrice result)
        currentHeight h;
    Ok (matchResultXtoY, matchResultYtoX,
        DecAdd poolXDeltaXtoY poolXDeltaYtoX,
        DecAdd poolYDeltaXtoY poolYDeltaYtoX)
  else Ok ([], [], ZeroDec, ZeroDec).

(** Lines 12-63.  The states the store hands out are fresh objects: they
    are laid out in the heap in the order of the slice, [swapMsgStates]
    being their addresses. *)
Definition swapMatching (ctx : Ctx) (liquidityPoolBatch : PoolBatch)
  : res (Matching Ctx Pool) :=
  let loaded :=
    GetAllNotProcessedPoolBatchSwapMsgStates ctx liquidityPoolBatch in
  if (length loaded =? 0)%nat then Ok (Return 0%N None ctx)
  else
    let '(pool, found) := GetPool ctx (PoolId liquidityPoolBatch) in
    if negb found then Ok (Return 0%N (Some ErrPoolNotExists) ctx)
    else
      let swapMsgStates := seq 0 (length loaded) in
      let h := setExecuted true <$> loaded in
      let ctx := SetPoolBatchSwapMsgStatesByPointer ctx (Id pool) h in
      let currentHeight := BlockHeight ctx in
      h ← ValidateStateAndExpireOrders swapMsgStates currentHeight false h;
      let reserveCoins := GetReserveCoins ctx pool in
      r0 ← index reserveCoins 0;
      r1 ← index reserveCoins 1;
      let X := ToDec (Amount r0) in
      let Y := ToDec (Amount r1) in
      currentPoolPrice ← DecQuo X Y;
      let denomX := Denom r0 in
      let denomY := Denom r1 in
      '(orderMap, XtoY, YtoX) ←
        MakeOrderMap swapMsgStates denomX denomY false h;
      let orderBook := SortOrderBook orderMap in
      result ← Match orderBook X Y;
      '(matchResultXtoY, matchResultYtoX, poolXdelta, poolYdelta) ←
        findOrderMatches result XtoY YtoX currentHeight h;
      Ok (Continue
            (mkMatched ctx pool swapMsgStates h currentHeight X Y
               currentPoolPrice denomX denomY XtoY YtoX result
               matchResultXtoY matchResultYtoX poolXdelta poolYdelta
               (N.of_nat (length loaded)))).

(** Lines 79-83: the order book of the orders left after settlement. *)
Definition executedOrderBook (L : Matched Ctx Pool) (u : Updated)
  : res (OrderBook * Heap) :=
  h ← ValidateStateAndExpireOrders (uXtoY u) (currentHeight L) false
        (uHeap u);
  h ← ValidateStateAndExpireOrders (uYtoX u) (currentHeight L) false h;
  '(orderMapExecuted, _, _) ←
    MakeOrderMap (uXtoY u ++ uYtoX u) (denomX L) (denomY L) true h;
  Ok (SortOrderBook orderMapExecuted, h).

(** Lines 65-110. *)
Definition swapSettlement (L : Matched Ctx Pool)
  : res (N * option error * Ctx) :=
  if MatchType (batchResult L) =? 0
  then Ok (executedMsgCount L, None, ctx1 L)
  else
    u ← UpdateState (X L) (Y L) (XtoY L) (YtoX L)
          (matchResultXtoY L) (matchResultYtoX L) (heap1 L);
    lastPrice ← DecQuo (uX u) (uY u);
    _ ← (if invariantCheckFlag
         then SwapPriceInvariants (uXtoY u) (uYtoX u)
                (matchResultXtoY L) (matchResultYtoX L)
                (uFractionalCntX u) (uFractionalCntY u)
                (poolXdelta1 L) (poolYdelta1 L)
                (uPoolXdelta u) (uPoolYdelta u)
                (uDecimalErrorX u) (uDecimalErrorY u) (batchResult L)
                (uHeap u)
         else Ok ());
    '(orderBookExecuted, h) ← executedOrderBook L u;
    if negb (Validate orderBookExecuted lastPrice)
    then Panic (PanicErr ErrOrderBookInvalidity)
    else
      h ← ValidateStateAndExpireOrders (uXtoY u) (currentHeight L) true h;
      h ← ValidateStateAndExpireOrders (uYtoX u) (currentHeight L) true h;
      matchResultMap ←
        forRange indexMatch ∅ (matchResultXtoY L ++ matchResultYtoX L);
      _ ← (if invariantCheckFlag
           then OrdersWithExecutedAndNotExecutedStateInvariants
                  (matchResultXtoY L) (matchResultYtoX L) matchResultMap
                  (swapMsgStates L) (uXtoY u) (uYtoX u) (batchResult L)
                  (currentPoolPrice L) (denomX L) h
           else Ok ());
      '(ctx, err) ←
        TransactAndRefundSwapLiquidityPool (ctx1 L) (swapMsgStates L)
          matchResultMap (pool L) (batchResult L) h;
      match err with
      | Some e => Panic (PanicErr e)
      | None => Ok (executedMsgCount L, None, ctx)
      end.

Definition SwapExecution (ctx : Ctx) (liquidityPoolBatch : PoolBatch)
  : res (N * option error * Ctx) :=
  r ← swapMatching ctx liquidityPoolBatch;
  match r with
  | Return n err ctx => Ok (n, err, ctx)
  | Continue L => swapSettlement L
  end.

End SwapExecution.

(** ** The gRPC query handlers (grpc_query.go) *)

(** The keeper as the query server sees it.  [QueryCtx] is the
    [context.Context] of a request, which carries the [sdk.Context] that
    [sdk.UnwrapSDKContext] takes out of it.  The message types of the
    handlers without a body are declared in package [types]; none of their
    fields is read and no value of the responses is built. *)
Class QueryKeeper := {
  QueryCtx : Type;
  LiquidityPoolT : Type;
  GetLiquidityPool : QueryCtx → N → LiquidityPoolT * bool;
  QueryLiquidityPoolsRequest : Type;
  QueryLiquidityPoolsResponse : Type;
  QueryLiquidityPoolBatchRequest : Type;
  QueryLiquidityPoolBatchResponse : Type;
  QueryPoolBatchSwapMsgsRequest : Type;
  QueryPoolBatchSwapMsgsResponse : Type;
  QueryPoolBatchDepositMsgsRequest : Type;
  QueryPoolBatchDepositMsgsResponse : Type;
  QueryPoolBatchWithdrawMsgsRequest : Type;
  QueryPoolBatchWithdrawMsgsResponse : Type;
  QueryParamsRequest : Type;
  QueryParamsResponse : Type
}.

Record QueryLiquidityPoolRequest := mkQueryLiquidityPoolRequest {
  reqPoolId : N
}.

(** [fmt.Sprintf] of [%d] on a [uint64]. *)
Definition formatUint (n : N) : string :=
  DecimalString.NilZero.string_of_uint (N.to_uint n).

Record QueryLiquidityPoolResponse (P : Type) :=
  mkQueryLiquidityPoolResponse { LiquidityPool_ : P }.
Arguments mkQueryLiquidityPoolResponse {P}.
Arguments LiquidityPool_ {P}.

Section Query.
Context `{Q : QueryKeeper}.

(** A handler's pair [(response, error)], a nil pointer or a nil error
    being [None], and the context the handler leaves. *)
Definition Reply (R : Type) : Type := option R * option error * QueryCtx.

(** Lines 15-28. *)
Definition LiquidityPool (c : QueryCtx)
    (req : option QueryLiquidityPoolRequest)
  : Reply (QueryLiquidityPoolResponse LiquidityPoolT) :=
  match req with
  | None => (None, Some (StatusError InvalidArgument "empty request"), c)
  | Some req =>
      let ctx := c in
      let '(pool, found) := GetLiquidityPool ctx (reqPoolId req) in
      if negb found then
        (None,
         Some (StatusError NotFound
                 ("liquidity pool " +:+ formatUint (reqPoolId req)
                  +:+ " doesn't exist")),
         c)
      else (Some (mkQueryLiquidityPoolResponse pool), None, c)
  end.

(** Lines 31-33. *)
Definition LiquidityPools (c : QueryCtx)
    (req : option QueryLiquidityPoolsRequest)
  : Reply QueryLiquidityPoolsResponse :=
  (None, None, c).

(** Lines 35-37. *)
Definition LiquidityPoolBatch (c : QueryCtx)
    (req : option QueryLiquidityPoolBatchRequest)
  : Reply QueryLiquidityPoolBatchResponse :=
  (None, None, c).

(** Lines 39-41. *)
Definition PoolBatchSwapMsgs (c : QueryCtx)
    (req : option QueryPoolBatchSwapMsgsRequest)
  : Reply QueryPoolBatchSwapMsgsResponse :=
  (None, None, c).

(** Lines 43-45. *)
Definition PoolBatchDepositMsgs (c : QueryCtx)
    (req : option QueryPoolBatchDepositMsgsRequest)
  : Reply QueryPoolBatchDepositMsgsResponse :=
  (None, None, c).

(** Lines 47-49. *)
Definition PoolBatchWithdrawMsgs (c : QueryCtx)
    (req : option QueryPoolBatchWithdrawMsgsRequest)
  : Reply QueryPoolBatchWithdrawMsgsResponse :=
  (None, None, c).

(** Lines 51-53. *)
Definition Params (c : QueryCtx) (req : option QueryParamsRequest)
  : Reply QueryParamsResponse :=
  (None, None, c).

End Query.

(** ** An in-memory keeper

    A small implementation of the collaborators, for running the model on
    concrete batches: the store is a record of the block height, the
    reserves of each pool and the swap message states of the one batch;
    prices are discovered at the pool price, and the matcher walks the
    orders of a side in the manner of the order matcher of the
    specification. *)

Module InMemory.

Record Store := mkStore {
  height : Z;
  reserves : list (N * list Coin);
  states : list SwapMsgState
}.

Definition notProcessed (s : SwapMsgState) : bool :=
  negb (Executed s) && negb (Succeeded s) && negb (ToBeDeleted s).

Definition putState (s : SwapMsgState) (l : list SwapMsgState)
  : list SwapMsgState :=
  (λ x, if (MsgIndex x =? MsgIndex s)%N then s else x) <$> l.

Definition putStates (new : list SwapMsgState) (ctx : Store) : Store :=
  mkStore (height ctx) (reserves ctx) (foldr putState (states ctx) new).

Definition lookupReserves (ctx : Store) (poolId : N) : option (list Coin) :=
  snd <$> list_find (λ e, e.1 = poolId) (reserves ctx) ≫= λ e, Some e.2.

Definition validateState (l : list ptr) (h : Heap) : res Heap :=
  forRange (λ h p, s ← deref h p;
                   if Executed s then Ok h
                   else Panic (PanicMsg "not executed")) h l.

(** One entry of the order book: limit price, side, open amount. *)
Definition Entry : Type := Z * Direction * Z.

Definition makeOrderMap (l : list ptr) (denomX denomY : string)
    (onlyNotMatched : bool) (h : Heap)
  : res (list Entry * list ptr * list ptr) :=
  '(entries, xs, ys) ←
    forRange (λ '(entries, xs, ys) p,
      s ← deref h p;
      if onlyNotMatched
         && (ToBeDeleted s || (Amount (RemainingOfferCoin s) =? 0))
      then Ok (entries, xs, ys)
      else
        let open := ToDec (Amount (RemainingOfferCoin s)) in
        if String.eqb (Denom (OfferCoin (Msg s))) denomX
        then Ok (entries ++ [(OrderPrice (Msg s), DirectionXtoY, open)],
                 xs ++ [p], ys)
        else if String.eqb (Denom (OfferCoin (Msg s))) denomY
        then Ok (entries ++ [(OrderPrice (Msg s), DirectionYtoX, open)],
                 xs, ys ++ [p])
        else Ok (entries, xs, ys))
      ([], [], []) l;
  xs ← sortByOrderPrice DecGT h xs;
  ys ← sortByOrderPrice DecLT h ys;
  Ok (entries, xs, ys).

Definition inLimit (d : Direction) (price orderPrice : Z) : bool :=
  match d with
  | DirectionXtoY => price <=? orderPrice
  | DirectionYtoX => orderPrice <=? price
  end.

Definition volume (d : Direction) (price : Z) (book : list Entry) : Z :=
  foldr (λ '(orderPrice, side, open) acc,
           match d, side with
           | DirectionXtoY, DirectionXtoY
           | DirectionYtoX, DirectionYtoX =>
               if inLimit d price orderPrice then open + acc else acc
           | _, _ => acc
           end) 0 book.

(** Price discovery at the pool price: every order in limit there is
    executed, the pool taking the other side. *)
Definition matchBook (book : list Entry) (X Y : Z) : res BatchResult :=
  price ← DecQuo X Y;
  let ex := volume DirectionXtoY price book in
  let ey := volume DirectionYtoX price book in
  if (ex =? 0) && (ey =? 0)
  then Ok (mkBatchResult 0 price 0 0 0 0)
  else Ok (mkBatchResult 1 price ex ey 0 0).

(** No XtoY order is left above the price while a YtoX order is left
    below it. *)
Definition validate (book : list Entry) (price : Z) : bool :=
  negb (existsb (λ '(orderPrice, side, _),
                   match side with
                   | DirectionXtoY => price <? orderPrice
                   | DirectionYtoX => false
                   end) book
        && existsb (λ '(orderPrice, side, _),
                      match side with
                      | DirectionXtoY => false
                      | DirectionYtoX => orderPrice <? price
                      end) book).

(** Half of the swap fee rate of 0.003. *)
Definition halfFeeRate : Z := 1500000000000000.

(** The walk of the order matcher: an order in limit is filled whole when
    the volume left covers it and with the volume left otherwise; the
    demand exchanged is the transacted amount over the price for an XtoY
    order and times the price for a YtoX order. *)
Fixpoint walkOrders (d : Direction) (price : Z) (h : Heap) (l : list ptr)
    (E : Z) : res (list MatchResult) :=
  match l with
  | [] => Ok []
  | p :: l' =>
      s ← deref h p;
      if negb (inLimit d price (OrderPrice (Msg s))) || (E <=? 0)
      then walkOrders d price h l' E
      else
        let open := ToDec (Amount (RemainingOfferCoin s)) in
        let transacted := if open <=? E then open else E in
        exchanged ←
          match d with
          | DirectionXtoY => DecQuo transacted price
          | DirectionYtoX => Ok (DecMul transacted price)
          end;
        rest ← walkOrders d price h l' (E - transacted);
        Ok (mkMatchResult (MsgIndex s) transacted exchanged
              (DecMul transacted halfFeeRate) p :: rest)
  end.

Definition findOrderMatch (d : Direction) (l : list ptr) (E price : Z)
    (currentHeight : Z) (h : Heap)
  : res (list MatchResult * Z * Z * Z) :=
  ms ← walkOrders d price h l E;
  let t := foldr (λ m acc, TransactedCoinAmt m + acc) 0 ms in
  let e := foldr (λ m acc, ExchangedDemandCoinAmt m + acc) 0 ms in
  match d with
  | DirectionXtoY => Ok (ms, Z.of_nat (length ms), t, - e)
  | DirectionYtoX => Ok (ms, Z.of_nat (length ms), - e, t)
  end.

#[export] Instance keeper : Collaborators := {|
  Ctx := Store;
  Pool := N;
  PoolBatch := N;
  OrderMap := list Entry;
  OrderBook := list Entry;
  Id := λ p, p;
  PoolId := λ b, b;
  NoMatch := 0;
  invariantCheckFlag := true;
  BlockHeight := height;
  GetAllNotProcessedPoolBatchSwapMsgStates :=
    λ ctx _, filter (λ s, notProcessed s = true) (states ctx);
  GetPool := λ ctx poolId, (poolId, bool_decide (is_Some (lookupReserves ctx poolId)));
  SetPoolBatchSwapMsgStatesByPointer := λ ctx _ new, putStates new ctx;
  GetReserveCoins := λ ctx p, default [] (lookupReserves ctx p);
  TransactAndRefundSwapLiquidityPool :=
    λ ctx _ _ _ _ h, Ok (putStates h ctx, None);
  ValidateStateAndExpireOrders := λ l _ _ h, validateState l h;
  MakeOrderMap := makeOrderMap;
  SortOrderBook := λ book, book;
  Match := matchBook;
  Validate := validate;
  FindOrderMatch := findOrderMatch;
  SwapPriceInvariants := λ _ _ _ _ _ _ _ _ _ _ _ _ _ _, Ok ();
  OrdersWithExecutedAndNotExecutedStateInvariants :=
    λ _ _ _ _ _ _ _ _ _ _, Ok ()
|}.

(** The fill settles at the price: its exchanged demand is its transacted
    amount converted at that price. *)
Definition settlesAt (d : Direction) (price : Z) (m : MatchResult) : Prop :=
  match d with
  | DirectionXtoY =>
      DecQuo (TransactedCoinAmt m) price = Ok (ExchangedDemandCoinAmt m)
  | DirectionYtoX =>
      ExchangedDemandCoinAmt m = DecMul (TransactedCoinAmt m) price
  end.

Definition dec (n : Z) : Z := n * 10 ^ 18.

Definition order (i : N) (denom demand : string) (offer remaining exchanged
    fee : Z) (price : Z) : SwapMsgState :=
  mkSwapMsgState i false false false 100
    (mkCoin denom exchanged) (mkCoin denom remaining) (mkCoin denom fee)
    (mkMsgSwap (mkCoin denom offer) demand price).

Definition pool1 : list (N * list Coin) :=
  [(1%N, [mkCoin "denomx" 1000000; mkCoin "denomy" 1000000])].

(** A pool of 1 000 000 x and 1 000 000 y with an XtoY order of 500 x at
    1.2 and a YtoX order of 500 y at 0.8. *)
Definition crossing : Store :=
  mkStore 10 pool1
    [order 1 "denomx" "denomy" 500 500 0 1 (dec 12 `div` 10);
     order 2 "denomy" "denomx" 500 500 0 1 (dec 8 `div` 10)].

(** The same pool with one YtoX order of 100 y at 1.5, out of limit at the
    pool price. *)
Definition apart : Store :=
  mkStore 10 pool1 [order 1 "denomy" "denomx" 100 100 0 1 (dec 15 `div` 10)].

(** The pool with one XtoY order whose reserved fee, 5, is more than its
    fill uses up. *)
Definition overReserved : Store :=
  mkStore 10 pool1 [order 1 "denomx" "denomy" 500 500 0 5 (dec 12 `div` 10)].

(** The batch has orders and the pool is not in the store. *)
Definition poolless : Store :=
  mkStore 10 [] [order 1 "denomx" "denomy" 500 500 0 1 (dec 12 `div` 10)].

Definition empty : Store := mkStore 10 pool1 [].

(** An untouched order of 500 with fills of 200, of 499 and of all of
    it. *)
Definition untouched : SwapMsgState :=
  setExecuted true (order 1 "denomx" "denomy" 500 500 0 1 (dec 1)).

Definition fill (transacted : Z) : MatchResult :=
  mkMatchResult 1 (dec transacted) (dec transacted)
    (DecMul (dec transacted) halfFeeRate) 0%nat.

(** A match result that transacts a decimal amount, whole or not, on the
    untouched order; [half] is 0.5. *)
Definition fillDecimal (transacted : Z) : MatchResult :=
  mkMatchResult 1 transacted transacted (DecMul transacted halfFeeRate)
    0%nat.

Definition half : Z := 5 * 10 ^ 17.

(** Price discovery for a package [types] whose [NoMatch] is 2. *)
Definition matchBookTwo (book : list Entry) (X Y : Z) : res BatchResult :=
  price ← DecQuo X Y;
  let ex := volume DirectionXtoY price book in
  let ey := volume DirectionYtoX price book in
  if (ex =? 0) && (ey =? 0)
  then Ok (mkBatchResult 2 price 0 0 0 0)
  else Ok (mkBatchResult 1 price ex ey 0 0).

(** The in-memory keeper with [NoMatch] at 2; its settlement leaves a mark
    on the store, 1000 added to the height. *)
Definition keeperNoMatchTwo : Collaborators := {|
  Ctx := Store;
  Pool := N;
  PoolBatch := N;
  OrderMap := list Entry;
  OrderBook := list Entry;
  Id := λ p, p;
  PoolId := λ b, b;
  NoMatch := 2;
  invariantCheckFlag := true;
  BlockHeight := height;
  GetAllNotProcessedPoolBatchSwapMsgStates :=
    λ ctx _, filter (λ s, notProcessed s = true) (states ctx);
  GetPool := λ ctx poolId,
    (poolId, bool_decide (is_Some (lookupReserves ctx poolId)));
  SetPoolBatchSwapMsgStatesByPointer := λ ctx _ new, putStates new ctx;
  GetReserveCoins := λ ctx p, default [] (lookupReserves ctx p);
  TransactAndRefundSwapLiquidityPool :=
    λ ctx _ _ _ _ h,
      Ok (mkStore (height ctx + 1000) (reserves ctx)
            (states (putStates h ctx)), None);
  ValidateStateAndExpireOrders := λ l _ _ h, validateState l h;
  MakeOrderMap := makeOrderMap;
  SortOrderBook := λ book, book;
  Match := matchBookTwo;
  Validate := validate;
  FindOrderMatch := findOrderMatch;
  SwapPriceInvariants := λ _ _ _ _ _ _ _ _ _ _ _ _ _ _, Ok ();
  OrdersWithExecutedAndNotExecutedStateInvariants :=
    λ _ _ _ _ _ _ _ _ _ _, Ok ()
|}.

(** The pool with its y reserve drained, and one order. *)
Definition drained : Store :=
  mkStore 10 [(1%N, [mkCoin "denomx" 1000000; mkCoin "denomy" 0])]
    [order 1 "denomx" "denomy" 500 500 0 1 (dec 12 `div` 10)].

(** Three executed XtoY orders at the limit prices 1, 3 and 3, and a YtoX
    order at 2. *)
Definition ladder : list SwapMsgState :=
  setExecuted true
    <$> [order 1 "denomx" "denomy" 500 500 0 1 (dec 1);
         order 2 "denomx" "denomy" 500 500 0 1 (dec 3);
         order 3 "denomx" "denomy" 500 500 0 1 (dec 3);
         order 4 "denomy" "denomx" 500 500 0 1 (dec 2)].

(** A match result for the order of the ladder at address [p]. *)
Definition fillAt (p : nat) (transacted : Z) : MatchResult :=
  mkMatchResult (N.of_nat (S p)) (dec transacted) (dec transacted)
    (DecMul (dec transacted) halfFeeRate) p.

End InMemory.

Module InMemoryQuery.

(** A query keeper over a list of pools, a pool being its id and its
    reserve denominations. *)
#[export] Instance keeper : QueryKeeper := {|
  QueryCtx := list (N * list string);
  LiquidityPoolT := N * list string;
  GetLiquidityPool := λ ctx poolId,
    match list_find (λ p, p.1 = poolId) ctx with
    | Some (_, p) => (p, true)
    | None => ((0%N, []), false)
    end;
  QueryLiquidityPoolsRequest := unit;
  QueryLiquidityPoolsResponse := unit;
  QueryLiquidityPoolBatchRequest := N;
  QueryLiquidityPoolBatchResponse := unit;
  QueryPoolBatchSwapMsgsRequest := N;
  QueryPoolBatchSwapMsgsResponse := unit;
  QueryPoolBatchDepositMsgsRequest := N;
  QueryPoolBatchDepositMsgsResponse := unit;
  QueryPoolBatchWithdrawMsgsRequest := N;
  QueryPoolBatchWithdrawMsgsResponse := unit;
  QueryParamsRequest := unit;
  QueryParamsResponse := unit
|}.

Definition onePool : list (N * list string) :=
  [(1%N, ["denomx"; "denomy"])].

End InMemoryQuery.

(** ** The vocabulary of the properties *)

(** The order a full or off-by-one fill leaves, when the check lets it
    through: [clamp] is the identity for a full match. *)
Definition settledWhole (clamp : Z → Z) (s : SwapMsgState) (m : MatchResult)
  : SwapMsgState :=
  settled s
    (mkCoin (Denom (ExchangedOfferCoin s))
       (Amount (ExchangedOfferCoin s) + TruncateInt (TransactedCoinAmt m)))
    (mkCoin (Denom (RemainingOfferCoin s))
       (clamp (Z.max 0 (Amount (RemainingOfferCoin s)
                        - TruncateInt (TransactedCoinAmt m)))))
    (CoinSafeSubAmount (ReservedOfferCoinFee s)
       (TruncateInt (OfferCoinFeeAmt m)))
    true.

Definition clampOne (r : Z) : Z := if r =? 1 then 0 else r.

(** What one iteration of either loop does to the order it points to:
    the branch is chosen by [classify], and the two loops differ in the
    text of the panics only. *)
Definition settleOrder (msgFull msgOffByOne : string) (s : SwapMsgState)
    (m : MatchResult) : res SwapMsgState :=
  match classify s m with
  | FullMatch => fullMatch msgFull s m
  | OffByOneDecimal => offByOneMatch msgOffByOne s m
  | FractionalMatch => fractionalMatch s m
  end.

Definition decimalErrorOf (c : MatchClass) : Z :=
  match c with OffByOneDecimal => OneDec | _ => 0 end.

Definition fractionalCntOf (c : MatchClass) : Z :=
  match c with FractionalMatch => 1 | _ => 0 end.

(** Either loop body, for statements that hold of both. *)
Definition settleStep (d : Direction) : Settlement → MatchResult → res Settlement :=
  match d with
  | DirectionXtoY => settleXtoY
  | DirectionYtoX => settleYtoX
  end.

Definition conserves (s : SwapMsgState) : Prop :=
  Amount (RemainingOfferCoin s) + Amount (ExchangedOfferCoin s)
  ≤ Amount (OfferCoin (Msg s)).

Definition sumTransacted (ms : list MatchResult) : Z :=
  foldr (λ m acc, TransactedCoinAmt m + acc) 0 ms.

Definition sumExchangedDemand (ms : list MatchResult) : Z :=
  foldr (λ m acc, ExchangedDemandCoinAmt m + acc) 0 ms.

(** The fills of both loops in the order [UpdateState] processes them. *)
Definition fillsInOrder (mX mY : list MatchResult)
  : list (Direction * MatchResult) :=
  ((λ m, (DirectionXtoY, m)) <$> mX) ++ ((λ m, (DirectionYtoX, m)) <$> mY).

Definition settleFill (st : Settlement) (dm : Direction * MatchResult)
  : res Settlement :=
  settleStep dm.1 st dm.2.

(** The state of an order after the writes of the full-match branch, or of
    the off-by-one branch, breaks the check of the source: remaining plus
    exchanged exceeds the original offer, the remaining offer is not zero,
    or two units or more of the reserved fee are left. *)
Definition fatalFill (s : SwapMsgState) (m : MatchResult) : Prop :=
  let s' :=
    settledWhole
      (match classify s m with OffByOneDecimal => clampOne | _ => id end)
      s m in
  Amount (OfferCoin (Msg s))
  < Amount (RemainingOfferCoin s') + Amount (ExchangedOfferCoin s')
  ∨ Amount (RemainingOfferCoin s') ≠ 0
  ∨ 2 ≤ Amount (ReservedOfferCoinFee s').

(** The limit price of the order at an address. *)
Definition orderPriceAt (h : Heap) (p : ptr) : option Z :=
  (λ s, OrderPrice (Msg s)) <$> h !! p.

Definition priceOr0 (h : Heap) (p : ptr) : Z := default 0 (orderPriceAt h p).

(** The fields of an order that settlement has no business with. *)
Definition sameOrder (s s' : SwapMsgState) : Prop :=
  MsgIndex s' = MsgIndex s
  ∧ Executed s' = Executed s
  ∧ OrderExpiryHeight s' = OrderExpiryHeight s
  ∧ Msg s' = Msg s
  ∧ Denom (ExchangedOfferCoin s') = Denom (ExchangedOfferCoin s).

#[global] Instance MatchClass_eq_dec : EqDecision MatchClass.
Proof. solve_decision. Defined.

(** The branch a match result takes on the order it points to in [h]. *)
Definition classAt (h : Heap) (m : MatchResult) : option MatchClass :=
  (λ s, classify s m) <$> h !! BatchMsg m.

(** The number of match results of [ms] that take the branch [c] on the
    orders of [h]. *)
Definition countClass (h : Heap) (c : MatchClass) (ms : list MatchResult)
  : Z :=
  Z.of_nat (length (filter (λ m, classAt h m = Some c) ms)).

Section Vocabulary.
Context `{K : Collaborators}.

(** The keeper [K] with another [GetPool]. *)
Definition withGetPool (getPool : Ctx → N → Pool * bool) : Collaborators :=
  {| Ctx := Ctx; Pool := Pool; PoolBatch := PoolBatch; OrderMap := OrderMap;
     OrderBook := OrderBook; Id := Id; PoolId := PoolId; NoMatch := NoMatch;
     invariantCheckFlag := invariantCheckFlag; BlockHeight := BlockHeight;
     GetAllNotProcessedPoolBatchSwapMsgStates :=
       GetAllNotProcessedPoolBatchSwapMsgStates;
     GetPool := getPool;
     SetPoolBatchSwapMsgStatesByPointer := SetPoolBatchSwapMsgStatesByPointer;
     GetReserveCoins := GetReserveCoins;
     TransactAndRefundSwapLiquidityPool := TransactAndRefundSwapLiquidityPool;
     ValidateStateAndExpireOrders := ValidateStateAndExpireOrders;
     MakeOrderMap := MakeOrderMap; SortOrderBook := SortOrderBook;
     Match := Match; Validate := Validate; FindOrderMatch := FindOrderMatch;
     SwapPriceInvariants := SwapPriceInvariants;
     OrdersWithExecutedAndNotExecutedStateInvariants :=
       OrdersWithExecutedAndNotExecutedStateInvariants |}.

(** Two match results of the batch carry the same [OrderMsgIndex]. *)
Definition duplicateMatch (L : Matched Ctx Pool) : Prop :=
  ∃ (i j : nat) (a b : MatchResult),
    i ≠ j
    ∧ (matchResultXtoY L ++ matchResultYtoX L) !! i = Some a
    ∧ (matchResultXtoY L ++ matchResultYtoX L) !! j = Some b
    ∧ OrderMsgIndex a = OrderMsgIndex b.

(** The order book rebuilt from the order states after settlement does
    not validate at the last price [X'/Y']. *)
Definition invalidOrderBook (L : Matched Ctx Pool) : Prop :=
  ∃ u lastPrice orderBookExecuted h,
    UpdateState (X L) (Y L) (XtoY L) (YtoX L) (matchResultXtoY L)
      (matchResultYtoX L) (heap1 L) = Ok u
    ∧ DecQuo (uX u) (uY u) = Ok lastPrice
    ∧ executedOrderBook L u = Ok (orderBookExecuted, h)
    ∧ Validate orderBookExecuted lastPrice = false.

(** One of the loops of [UpdateState] reaches, in the state [st], a fill
    [m] of the full or off-by-one branch that breaks the check. *)
Definition fatalUpdate (L : Matched Ctx Pool) : Prop :=
  ∃ (d : Direction) (pre post : list MatchResult) (m : MatchResult)
    (st : Settlement) (s : SwapMsgState),
    match d with
    | DirectionXtoY =>
        matchResultXtoY L = pre ++ m :: post
        ∧ forRange settleXtoY (initSettlement (heap1 L)) pre = Ok st
    | DirectionYtoX =>
        matchResultYtoX L = pre ++ m :: post
        ∧ ∃ stX,
            forRange settleXtoY (initSettlement (heap1 L))
              (matchResultXtoY L) = Ok stX
            ∧ forRange settleYtoX stX pre = Ok st
    end
    ∧ heap st !! BatchMsg m = Some s
    ∧ classify s m ≠ FractionalMatch
    ∧ fatalFill s m.

End Vocabulary.

(** * Properties *)

(** ** The result monad and the loops *)

Lemma bind_Ok {A B} (r : res A) (k : A → res B) (b : B) :
  r ≫= k = Ok b → ∃ a, r = Ok a ∧ k a = Ok b.
Proof. destruct r as [a|p]; [eauto | discriminate]. Qed.

Lemma bind_Panic_l {A B} (r : res A) (k : A → res B) :
  is_Panic r → is_Panic (r ≫= k).
Proof. intros [p ->]. by exists p. Qed.

Lemma is_Panic_Panic {A} (p : panic_value) : is_Panic (@Panic A p).
Proof. by exists p. Qed.

Lemma not_Ok_is_Panic {A} (r : res A) : (∀ a, r ≠ Ok a) → is_Panic r.
Proof. destruct r as [a|p]; [intros H; by destruct (H a) | by exists p]. Qed.

Lemma forRange_app {S A} (body : S → A → res S) (acc : S) (l1 l2 : list A) :
  forRange body acc (l1 ++ l2)
  = forRange body acc l1 ≫= λ acc', forRange body acc' l2.
Proof.
  revert acc. induction l1 as [|x l1 IH]; intros acc; [done|].
  simpl. destruct (body acc x) as [acc'|p]; simpl; [apply IH | done].
Qed.

(** A loop aborts when the body aborts at some element it reaches. *)
Lemma forRange_reaches_Panic {S A} (body : S → A → res S) (acc acc' : S)
    (pre post : list A) (x : A) :
  forRange body acc pre = Ok acc' →
  is_Panic (body acc' x) →
  is_Panic (forRange body acc (pre ++ x :: post)).
Proof.
  intros Hpre [p Hp]. rewrite forRange_app, Hpre. simpl. rewrite Hp.
  by exists p.
Qed.

(** ** Truncation *)

Lemma precisionReuse_pos : 0 < precisionReuse.
Proof. reflexivity. Qed.

(** A decimal that does not exceed an integer truncates to at most that
    integer, whatever the signs. *)
Lemma TruncateInt_le_ToDec (d r : Z) : d ≤ ToDec r → TruncateInt d ≤ r.
Proof.
  unfold ToDec, TruncateInt. pose proof precisionReuse_pos as HP.
  generalize dependent precisionReuse. intros P HP Hle.
  destruct (Z_lt_le_dec d 0) as [Hneg|Hpos].
  - pose proof (Z.quot_rem' d P) as Hqr.
    pose proof (Z.rem_bound_pos_neg d P) as Hb.
    destruct (Z_le_gt_dec (Z.quot d P) r) as [|Hgt]; [done|]. exfalso.
    assert (P * (r + 1) ≤ P * Z.quot d P)
      by (apply Z.mul_le_mono_nonneg_l; lia).
    lia.
  - rewrite Z.quot_div_nonneg by lia.
    apply Z.div_le_upper_bound; lia.
Qed.

Lemma TruncateInt_ToDec (r : Z) : TruncateInt (ToDec r) = r.
Proof.
  unfold ToDec, TruncateInt. apply Z.quot_mul. pose proof precisionReuse_pos. lia.
Qed.

(** ** The checks and branches of [UpdateState] *)

Lemma NewCoin_Ok (denom : string) (amount : Z) (c : Coin) :
  NewCoin denom amount = Ok c → c = mkCoin denom amount ∧ 0 ≤ amount.
Proof.
  unfold NewCoin. destruct (Z.ltb_spec amount 0); [done|].
  intros [= <-]. split; [done | lia].
Qed.

Lemma CoinAdd_Ok (a b c : Coin) :
  CoinAdd a b = Ok c →
  c = mkCoin (Denom a) (Amount a + Amount b) ∧ Denom a = Denom b.
Proof.
  unfold CoinAdd, IntAdd. destruct (String.eqb_spec (Denom a) (Denom b));
    [|done].
  by intros [= <-].
Qed.

Lemma CoinEqual_true (a b : Coin) : CoinEqual a b = true ↔ a = b.
Proof.
  unfold CoinEqual, IntEqual. destruct a as [da xa], b as [db xb]; simpl.
  rewrite andb_true_iff, String.eqb_eq, Z.eqb_eq.
  split; [intros [-> ->]; done | intros [= -> ->]; done].
Qed.

(** The check passes exactly on the three conditions of the source. *)
Lemma remainingNotMatched_spec (offer exchanged remaining fee : Coin) :
  remainingNotMatched offer exchanged remaining fee
  = Ok (bool_decide
          (Amount offer < Amount remaining + Amount exchanged
           ∨ remaining ≠ mkCoin (Denom offer) 0
           ∨ 2 ≤ Amount fee)).
Proof.
  unfold remainingNotMatched, IntGT, IntAdd, NewCoin, ZeroInt, NewInt,
    CoinIsGTE, IntLT.
  simpl. rewrite String.eqb_refl.
  destruct (Z.gtb_spec (Amount remaining + Amount exchanged) (Amount offer))
    as [Hgt|Hle]; simpl.
  { rewrite bool_decide_eq_true_2; [done | lia]. }
  destruct (CoinEqual remaining (mkCoin (Denom offer) 0)) eqn:Heq; simpl.
  - apply CoinEqual_true in Heq.
    destruct (Z.ltb_spec (Amount fee) 2); simpl.
    + rewrite bool_decide_eq_false_2; [done|]. intros [?|[?|?]]; [lia|done|lia].
    + rewrite bool_decide_eq_true_2; [done | auto].
  - assert (remaining ≠ mkCoin (Denom offer) 0) as Hne.
    { intros H. apply CoinEqual_true in H. congruence. }
    rewrite bool_decide_eq_true_2; [done | auto].
Qed.

Lemma fullMatch_Ok (msg : string) (s s' : SwapMsgState) (m : MatchResult) :
  fullMatch msg s m = Ok s' →
  s' = settledWhole id s m
  ∧ 0 ≤ TruncateInt (TransactedCoinAmt m)
  ∧ Amount (RemainingOfferCoin s') + Amount (ExchangedOfferCoin s')
    ≤ Amount (OfferCoin (Msg s))
  ∧ RemainingOfferCoin s' = mkCoin (Denom (OfferCoin (Msg s))) 0
  ∧ Amount (ReservedOfferCoinFee s') < 2.
Proof.
  unfold fullMatch. intros H.
  apply bind_Ok in H as (c & Hc & H). apply NewCoin_Ok in Hc as [-> Ht].
  apply bind_Ok in H as (e & He & H). apply CoinAdd_Ok in He as [-> Hd].
  rewrite remainingNotMatched_spec in H. simpl in H.
  case_bool_decide as Hbad; [done|]. injection H as <-.
  unfold settledWhole, CoinSafeSubAmount in *; simpl in *.
  split_and!; try done.
  - lia.
  - destruct (decide (mkCoin (Denom (RemainingOfferCoin s))
                (Z.max 0 (Amount (RemainingOfferCoin s)
                          - TruncateInt (TransactedCoinAmt m)))
              = mkCoin (Denom (OfferCoin (Msg s))) 0)) as [|Hne]; [done|].
    destruct Hbad; auto.
  - lia.
Qed.

Lemma offByOneMatch_Ok (msg : string) (s s' : SwapMsgState)
    (m : MatchResult) :
  offByOneMatch msg s m = Ok s' →
  s' = settledWhole clampOne s m
  ∧ 0 ≤ TruncateInt (TransactedCoinAmt m)
  ∧ Amount (RemainingOfferCoin s') + Amount (ExchangedOfferCoin s')
    ≤ Amount (OfferCoin (Msg s))
  ∧ RemainingOfferCoin s' = mkCoin (Denom (OfferCoin (Msg s))) 0
  ∧ Amount (ReservedOfferCoinFee s') < 2.
Proof.
  unfold offByOneMatch. intros H.
  apply bind_Ok in H as (c & Hc & H). apply NewCoin_Ok in Hc as [-> Ht].
  apply bind_Ok in H as (e & He & H). apply CoinAdd_Ok in He as [-> Hd].
  assert ((if IntEqual
                (Amount (CoinSafeSubAmount (RemainingOfferCoin s)
                           (TruncateInt (TransactedCoinAmt m)))) OneInt
           then mkCoin (Denom (CoinSafeSubAmount (RemainingOfferCoin s)
                                 (TruncateInt (TransactedCoinAmt m)))) ZeroInt
           else CoinSafeSubAmount (RemainingOfferCoin s)
                  (TruncateInt (TransactedCoinAmt m)))
          = mkCoin (Denom (RemainingOfferCoin s))
              (clampOne (Z.max 0 (Amount (RemainingOfferCoin s)
                                  - TruncateInt (TransactedCoinAmt m)))))
    as Hclamp.
  { unfold CoinSafeSubAmount, IntEqual, OneInt, ZeroInt, clampOne. simpl.
    by destruct (_ =? 1). }
  cbv zeta in H. rewrite Hclamp, remainingNotMatched_spec in H. simpl in H.
  case_bool_decide as Hbad; [done|]. injection H as <-.
  unfold settledWhole, CoinSafeSubAmount in *; simpl in *.
  split_and!; try done.
  - lia.
  - match goal with |- ?a = ?b => destruct (decide (a = b)) as [|Hne] end;
      [done|]. destruct Hbad; auto.
  - lia.
Qed.

Lemma fractionalMatch_Ok (s s' : SwapMsgState) (m : MatchResult) :
  fractionalMatch s m = Ok s' →
  s' = settled s
         (mkCoin (Denom (ExchangedOfferCoin s))
            (Amount (ExchangedOfferCoin s)
             + TruncateInt (TransactedCoinAmt m)))
         (CoinSafeSubAmount (RemainingOfferCoin s)
            (TruncateInt (TransactedCoinAmt m)))
         (CoinSafeSubAmount (ReservedOfferCoinFee s)
            (TruncateInt (OfferCoinFeeAmt m)))
         false
  ∧ 0 ≤ TruncateInt (TransactedCoinAmt m).
Proof.
  unfold fractionalMatch. intros H.
  apply bind_Ok in H as (c & Hc & H). apply NewCoin_Ok in Hc as [-> Ht].
  apply bind_Ok in H as (e & He & H). apply CoinAdd_Ok in He as [-> Hd].
  by injection H as <-.
Qed.

Lemma settleXtoY_Ok (st st' : Settlement) (m : MatchResult) :
  settleXtoY st m = Ok st' →
  ∃ s s',
    heap st !! BatchMsg m = Some s
    ∧ settleOrder "remaining not matched 1" "remaining not matched 2" s m
      = Ok s'
    ∧ heap st' = <[BatchMsg m := s']> (heap st)
    ∧ poolXdelta st' = poolXdelta st + TransactedCoinAmt m
    ∧ poolYdelta st' = poolYdelta st - ExchangedDemandCoinAmt m
    ∧ decimalErrorX st' = decimalErrorX st + decimalErrorOf (classify s m)
    ∧ decimalErrorY st' = decimalErrorY st
    ∧ fractionalCntX st' = fractionalCntX st + fractionalCntOf (classify s m)
    ∧ fractionalCntY st' = fractionalCntY st.
Proof.
  unfold settleXtoY, deref, settleOrder, classify, DecAdd, DecSub.
  intros H. destruct (heap st !! BatchMsg m) as [s|] eqn:Hs; [|done].
  simpl in H. exists s.
  destruct (isFullMatch s m); [|destruct (isOffByOne s m)];
    apply bind_Ok in H as (s' & Hs' & [= <-]); exists s'; simpl;
    split_and!; try done; lia.
Qed.

Lemma settleYtoX_Ok (st st' : Settlement) (m : MatchResult) :
  settleYtoX st m = Ok st' →
  ∃ s s',
    heap st !! BatchMsg m = Some s
    ∧ settleOrder "remaining not matched 3" "remaining not matched 4" s m
      = Ok s'
    ∧ heap st' = <[BatchMsg m := s']> (heap st)
    ∧ poolXdelta st' = poolXdelta st - ExchangedDemandCoinAmt m
    ∧ poolYdelta st' = poolYdelta st + TransactedCoinAmt m
    ∧ decimalErrorX st' = decimalErrorX st
    ∧ decimalErrorY st' = decimalErrorY st + decimalErrorOf (classify s m)
    ∧ fractionalCntX st' = fractionalCntX st
    ∧ fractionalCntY st' = fractionalCntY st + fractionalCntOf (classify s m).
Proof.
  unfold settleYtoX, deref, settleOrder, classify, DecAdd, DecSub.
  intros H. destruct (heap st !! BatchMsg m) as [s|] eqn:Hs; [|done].
  simpl in H. exists s.
  destruct (isFullMatch s m); [|destruct (isOffByOne s m)];
    apply bind_Ok in H as (s' & Hs' & [= <-]); exists s'; simpl;
    split_and!; try done; lia.
Qed.

Lemma settleStep_order (d : Direction) (st st' : Settlement)
    (m : MatchResult) :
  settleStep d st m = Ok st' →
  ∃ s s' msg1 msg2,
    heap st !! BatchMsg m = Some s
    ∧ settleOrder msg1 msg2 s m = Ok s'
    ∧ heap st' = <[BatchMsg m := s']> (heap st)
    ∧ heap st' !! BatchMsg m = Some s'.
Proof.
  intros H.
  assert (∃ s s' msg1 msg2,
    heap st !! BatchMsg m = Some s
    ∧ settleOrder msg1 msg2 s m = Ok s'
    ∧ heap st' = <[BatchMsg m := s']> (heap st)) as (s & s' & m1 & m2 & Hs & Ho & Hh).
  { destruct d; simpl in H.
    - apply settleXtoY_Ok in H as (s & s' & ? & ? & ? & _). eauto 10.
    - apply settleYtoX_Ok in H as (s & s' & ? & ? & ? & _). eauto 10. }
  exists s, s', m1, m2. split_and!; try done.
  rewrite Hh. apply list_lookup_insert_eq. by eapply lookup_lt_Some.
Qed.

Lemma settleOrder_conserves (msg1 msg2 : string) (s s' : SwapMsgState)
    (m : MatchResult) :
  settleOrder msg1 msg2 s m = Ok s' →
  conserves s →
  TransactedCoinAmt m ≤ ToDec (Amount (RemainingOfferCoin s)) →
  conserves s'.
Proof.
  unfold settleOrder, conserves. intros H Hinv Hle.
  destruct (classify s m).
  - apply fullMatch_Ok in H as (-> & _ & H & _). exact H.
  - apply offByOneMatch_Ok in H as (-> & _ & H & _). exact H.
  - apply fractionalMatch_Ok in H as (-> & _).
    apply TruncateInt_le_ToDec in Hle.
    unfold settled, CoinSafeSubAmount; simpl. lia.
Qed.

(** C2. Order conservation: when an iteration of either loop of
    [UpdateState] processes a match result whose order satisfies
    remaining + exchanged ≤ original offer amount, with a transacted
    amount of at most the remaining offer, and the iteration does not
    abort, the order satisfies remaining + exchanged ≤ original offer
    amount afterwards; this holds in the full, the off-by-one and the
    fractional branch alike. *)
Theorem UpdateState_order_conservation (d : Direction) (st st' : Settlement)
    (m : MatchResult) (s : SwapMsgState) :
  heap st !! BatchMsg m = Some s →
  conserves s →
  TransactedCoinAmt m ≤ ToDec (Amount (RemainingOfferCoin s)) →
  settleStep d st m = Ok st' →
  ∃ s', heap st' !! BatchMsg m = Some s'
        ∧ Msg s' = Msg s
        ∧ conserves s'.
Proof.
  intros Hs Hinv Hle H.
  apply settleStep_order in H as (s0 & s' & m1 & m2 & Hs0 & Ho & _ & Hs').
  assert (s0 = s) as -> by congruence.
  exists s'. split_and!; [done | | by eapply settleOrder_conserves].
  unfold settleOrder in Ho. destruct (classify s m).
  - by apply fullMatch_Ok in Ho as (-> & _).
  - by apply offByOneMatch_Ok in Ho as (-> & _).
  - by apply fractionalMatch_Ok in Ho as (-> & _).
Qed.

Lemma classify_FullMatch (s : SwapMsgState) (m : MatchResult) :
  classify s m = FullMatch
  ↔ ToDec (Amount (OfferCoin (Msg s))) = TransactedCoinAmt m
    ∨ ToDec (Amount (RemainingOfferCoin s)) = TransactedCoinAmt m.
Proof.
  unfold classify, isFullMatch, DecEqual.
  destruct (Z.eqb_spec (ToDec (Amount (OfferCoin (Msg s))))
              (TransactedCoinAmt m));
    destruct (Z.eqb_spec (ToDec (Amount (RemainingOfferCoin s)))
                (TransactedCoinAmt m)); simpl;
    try (split; [auto | done]).
  destruct (isOffByOne s m); split; (done || intros [?|?]; done).
Qed.

(** C3. A match result taken by the full-match branch of either loop of
    [UpdateState] (transacted equals the original or the remaining offer in
    decimal) leaves, when the iteration does not abort, an order whose
    remaining offer coin is exactly zero, whose reserved offer coin fee is
    at most one unit, and whose [Succeeded] and [ToBeDeleted] flags are
    both true. *)
Theorem UpdateState_full_match (d : Direction) (st st' : Settlement)
    (m : MatchResult) (s : SwapMsgState) :
  heap st !! BatchMsg m = Some s →
  classify s m = FullMatch →
  settleStep d st m = Ok st' →
  ∃ s', heap st' !! BatchMsg m = Some s'
        ∧ RemainingOfferCoin s' = mkCoin (Denom (OfferCoin (Msg s))) 0
        ∧ Amount (RemainingOfferCoin s') = 0
        ∧ Amount (ReservedOfferCoinFee s') ≤ 1
        ∧ Succeeded s' = true
        ∧ ToBeDeleted s' = true.
Proof.
  intros Hs Hc H.
  apply settleStep_order in H as (s0 & s' & m1 & m2 & Hs0 & Ho & _ & Hs').
  assert (s0 = s) as -> by congruence.
  unfold settleOrder in Ho. rewrite Hc in Ho.
  apply fullMatch_Ok in Ho as (Heq & _ & _ & Hrem & Hfee).
  exists s'. split_and!; try done.
  - by rewrite Hrem.
  - lia.
  - by rewrite Heq.
  - by rewrite Heq.
Qed.

Lemma classify_OffByOneDecimal (s : SwapMsgState) (m : MatchResult) :
  classify s m = OffByOneDecimal
  ↔ (ToDec (Amount (OfferCoin (Msg s))) ≠ TransactedCoinAmt m
     ∧ ToDec (Amount (RemainingOfferCoin s)) ≠ TransactedCoinAmt m)
    ∧ (ToDec (Amount (OfferCoin (Msg s))) - TransactedCoinAmt m = OneDec
       ∨ ToDec (Amount (RemainingOfferCoin s)) - TransactedCoinAmt m
         = OneDec).
Proof.
  unfold classify, isFullMatch, isOffByOne, DecEqual, DecSub.
  destruct (Z.eqb_spec (ToDec (Amount (OfferCoin (Msg s))))
              (TransactedCoinAmt m));
    destruct (Z.eqb_spec (ToDec (Amount (RemainingOfferCoin s)))
                (TransactedCoinAmt m)); simpl;
    try (split; [done | intros [[? ?] _]; done]).
  destruct (Z.eqb_spec (ToDec (Amount (OfferCoin (Msg s)))
                        - TransactedCoinAmt m) OneDec);
    destruct (Z.eqb_spec (ToDec (Amount (RemainingOfferCoin s))
                          - TransactedCoinAmt m) OneDec); simpl;
    try (split; [auto | done]).
  split; [done | intros [_ [?|?]]; done].
Qed.

(** For a fill inside its order, the off-by-one branch is the one where
    the remaining offer exceeds the transacted amount by exactly one. *)
Lemma classify_OffByOneDecimal_within (s : SwapMsgState) (m : MatchResult) :
  TransactedCoinAmt m ≤ ToDec (Amount (RemainingOfferCoin s)) →
  Amount (RemainingOfferCoin s) ≤ Amount (OfferCoin (Msg s)) →
  classify s m = OffByOneDecimal
  ↔ ToDec (Amount (RemainingOfferCoin s)) - TransactedCoinAmt m = OneDec.
Proof.
  intros Ht Hr. rewrite classify_OffByOneDecimal.
  unfold ToDec, OneDec in *. pose proof precisionReuse_pos as HP.
  generalize dependent precisionReuse. intros P Ht HP.
  assert (Amount (RemainingOfferCoin s) * P ≤ Amount (OfferCoin (Msg s)) * P)
    by (apply Z.mul_le_mono_nonneg_r; lia).
  split.
  - intros [[Ho Hne] [H1|H1]]; [|done].
    destruct (decide (Amount (RemainingOfferCoin s)
                      = Amount (OfferCoin (Msg s)))) as [Heq|Hlt].
    + rewrite Heq. done.
    + assert (Amount (RemainingOfferCoin s) + 1
              ≤ Amount (OfferCoin (Msg s))) as Hs by lia.
      apply (Z.mul_le_mono_nonneg_r _ _ P) in Hs; lia.
  - intros H1. split; [|auto]. split; lia.
Qed.

(** C4. For a fill within its order (transacted ≤ remaining ≤ original
    offer), [UpdateState] takes the off-by-one branch exactly when remaining
    minus transacted equals one in decimal, the transacted amount compared
    as it is, without truncation.  (In general the branch is taken exactly
    when the match is not a full match and the original offer amount or the
    remaining offer exceeds the transacted amount by exactly one.)  In that
    branch an iteration that does not abort adds one to [decimalErrorX] in
    the loop over the XtoY fills and to [decimalErrorY] in the loop over the
    YtoX fills, and leaves the order of a full match ([settledWhole id])
    except that a remaining offer of exactly one unit is set to zero
    ([settledWhole clampOne]). *)
Theorem UpdateState_off_by_one (d : Direction) (st : Settlement)
    (m : MatchResult) (s : SwapMsgState) :
  heap st !! BatchMsg m = Some s →
  (classify s m = OffByOneDecimal
   ↔ (ToDec (Amount (OfferCoin (Msg s))) ≠ TransactedCoinAmt m
      ∧ ToDec (Amount (RemainingOfferCoin s)) ≠ TransactedCoinAmt m)
     ∧ (DecSub (ToDec (Amount (OfferCoin (Msg s)))) (TransactedCoinAmt m)
        = OneDec
        ∨ DecSub (ToDec (Amount (RemainingOfferCoin s)))
            (TransactedCoinAmt m) = OneDec))
  ∧ (TransactedCoinAmt m ≤ ToDec (Amount (RemainingOfferCoin s)) →
     Amount (RemainingOfferCoin s) ≤ Amount (OfferCoin (Msg s)) →
     classify s m = OffByOneDecimal
     ↔ DecSub (ToDec (Amount (RemainingOfferCoin s))) (TransactedCoinAmt m)
       = OneDec)
  ∧ (classify s m = OffByOneDecimal →
     ∀ st', settleStep d st m = Ok st' →
       decimalErrorX st'
       = DecAdd (decimalErrorX st)
           (match d with DirectionXtoY => OneDec | DirectionYtoX => 0 end)
       ∧ decimalErrorY st'
         = DecAdd (decimalErrorY st)
             (match d with DirectionXtoY => 0 | DirectionYtoX => OneDec end)
       ∧ heap st' !! BatchMsg m = Some (settledWhole clampOne s m)
       ∧ Amount (RemainingOfferCoin (settledWhole clampOne s m)) = 0)
  ∧ (classify s m = FullMatch →
     ∀ st', settleStep d st m = Ok st' →
       decimalErrorX st' = decimalErrorX st
       ∧ decimalErrorY st' = decimalErrorY st
       ∧ heap st' !! BatchMsg m = Some (settledWhole id s m)).
Proof.
  intros Hs. unfold DecSub, DecAdd. split_and!.
  - apply classify_OffByOneDecimal.
  - apply classify_OffByOneDecimal_within.
  - intros Hc st' H.
    assert (heap st' !! BatchMsg m = Some (settledWhole clampOne s m)
            ∧ Amount (RemainingOfferCoin (settledWhole clampOne s m)) = 0)
      as [Hh Hz].
    { pose proof H as H'.
      apply settleStep_order in H' as (s0 & s' & m1 & m2 & Hs0 & Ho & _ & Hs').
      assert (s0 = s) as -> by congruence.
      unfold settleOrder in Ho. rewrite Hc in Ho.
      apply offByOneMatch_Ok in Ho as (Heq & _ & _ & Hrem & _).
      rewrite <- Heq, Hrem. done. }
    destruct d; simpl in H.
    + apply settleXtoY_Ok in H as (s0 & s' & Hs0 & _ & _ & _ & _ & Hx & Hy & _).
      assert (s0 = s) as -> by congruence. rewrite Hc in Hx. simpl in Hx.
      split_and!; try done. lia.
    + apply settleYtoX_Ok in H as (s0 & s' & Hs0 & _ & _ & _ & _ & Hx & Hy & _).
      assert (s0 = s) as -> by congruence. rewrite Hc in Hy. simpl in Hy.
      split_and!; try done. lia.
  - intros Hc st' H.
    assert (heap st' !! BatchMsg m = Some (settledWhole id s m)) as Hh.
    { pose proof H as H'.
      apply settleStep_order in H' as (s0 & s' & m1 & m2 & Hs0 & Ho & _ & Hs').
      assert (s0 = s) as -> by congruence.
      unfold settleOrder in Ho. rewrite Hc in Ho.
      apply fullMatch_Ok in Ho as (Heq & _). by rewrite <- Heq. }
    destruct d; simpl in H.
    + apply settleXtoY_Ok in H as (s0 & s' & Hs0 & _ & _ & _ & _ & Hx & Hy & _).
      assert (s0 = s) as -> by congruence. rewrite Hc in Hx. simpl in Hx.
      split_and!; try done. lia.
    + apply settleYtoX_Ok in H as (s0 & s' & Hs0 & _ & _ & _ & _ & Hx & Hy & _).
      assert (s0 = s) as -> by congruence. rewrite Hc in Hy. simpl in Hy.
      split_and!; try done. lia.
Qed.

(** ** The pool deltas *)

Lemma decimalErrorOf_cases (c : MatchClass) :
  decimalErrorOf c = 0 ∨ decimalErrorOf c = OneDec.
Proof. destruct c; auto. Qed.

Lemma forRange_settleXtoY_deltas (ms : list MatchResult)
    (st st' : Settlement) :
  forRange settleXtoY st ms = Ok st' →
  poolXdelta st' = poolXdelta st + sumTransacted ms
  ∧ poolYdelta st' = poolYdelta st - sumExchangedDemand ms
  ∧ decimalErrorY st' = decimalErrorY st
  ∧ ∃ k : nat, (k ≤ length ms)%nat
               ∧ decimalErrorX st' = decimalErrorX st + Z.of_nat k * OneDec.
Proof.
  revert st. induction ms as [|m ms IH]; intros st H; simpl in *.
  - injection H as <-. split_and!; try lia. exists 0%nat. split; lia.
  - apply bind_Ok in H as (st1 & H1 & H).
    apply settleXtoY_Ok in H1
      as (s & s' & _ & _ & _ & Hx & Hy & Hex & Hey & _).
    apply IH in H as (Hx' & Hy' & Hey' & k & Hk & Hex').
    split_and!; try lia.
    destruct (decimalErrorOf_cases (classify s m)) as [Hz|Hz];
      rewrite Hz in Hex.
    + exists k. split; lia.
    + exists (S k). split; lia.
Qed.

Lemma forRange_settleYtoX_deltas (ms : list MatchResult)
    (st st' : Settlement) :
  forRange settleYtoX st ms = Ok st' →
  poolXdelta st' = poolXdelta st - sumExchangedDemand ms
  ∧ poolYdelta st' = poolYdelta st + sumTransacted ms
  ∧ decimalErrorX st' = decimalErrorX st
  ∧ ∃ k : nat, (k ≤ length ms)%nat
               ∧ decimalErrorY st' = decimalErrorY st + Z.of_nat k * OneDec.
Proof.
  revert st. induction ms as [|m ms IH]; intros st H; simpl in *.
  - injection H as <-. split_and!; try lia. exists 0%nat. split; lia.
  - apply bind_Ok in H as (st1 & H1 & H).
    apply settleYtoX_Ok in H1
      as (s & s' & _ & _ & _ & Hx & Hy & Hex & Hey & _).
    apply IH in H as (Hx' & Hy' & Hex' & k & Hk & Hey').
    split_and!; try lia.
    destruct (decimalErrorOf_cases (classify s m)) as [Hz|Hz];
      rewrite Hz in Hey.
    + exists k. split; lia.
    + exists (S k). split; lia.
Qed.

(** The two loops of [UpdateState], for a run that returns. *)
Lemma UpdateState_Ok (X Y : Z) (XtoY YtoX : list ptr)
    (mX mY : list MatchResult) (h : Heap) (u : Updated) :
  UpdateState X Y XtoY YtoX mX mY h = Ok u →
  ∃ stX stY,
    forRange settleXtoY (initSettlement h) mX = Ok stX
    ∧ forRange settleYtoX stX mY = Ok stY
    ∧ sortByOrderPrice DecGT h XtoY = Ok (uXtoY u)
    ∧ sortByOrderPrice DecLT h YtoX = Ok (uYtoX u)
    ∧ uHeap u = heap stY
    ∧ uDecimalErrorX u = decimalErrorX stY
    ∧ uDecimalErrorY u = decimalErrorY stY
    ∧ uFractionalCntX u = fractionalCntX stY
    ∧ uFractionalCntY u = fractionalCntY stY
    ∧ uPoolXdelta u = poolXdelta stY + decimalErrorX stY
    ∧ uPoolYdelta u = poolYdelta stY + decimalErrorY stY
    ∧ uX u = X + uPoolXdelta u
    ∧ uY u = Y + uPoolYdelta u.
Proof.
  unfold UpdateState, DecAdd. intros H.
  apply bind_Ok in H as (sx & Hsx & H). apply bind_Ok in H as (sy & Hsy & H).
  apply bind_Ok in H as (stX & HX & H). apply bind_Ok in H as (stY & HY & H).
  injection H as <-. exists stX, stY. simpl. split_and!; done.
Qed.

(** C5. When [UpdateState] returns, the x delta is the transacted amounts
    of the XtoY fills minus the exchanged demand of the YtoX fills plus
    the returned [decimalErrorX], the y delta is the transacted amounts of
    the YtoX fills minus the exchanged demand of the XtoY fills plus the
    returned [decimalErrorY], and the returned reserves are [X] and [Y]
    plus these deltas.  Each decimal error is one unit per fill of its side
    at most. *)
Theorem UpdateState_pool_deltas (X Y : Z) (XtoY YtoX : list ptr)
    (matchResultXtoY matchResultYtoX : list MatchResult) (h : Heap)
    (u : Updated) :
  UpdateState X Y XtoY YtoX matchResultXtoY matchResultYtoX h = Ok u →
  uPoolXdelta u
  = sumTransacted matchResultXtoY - sumExchangedDemand matchResultYtoX
    + uDecimalErrorX u
  ∧ uPoolYdelta u
    = sumTransacted matchResultYtoX - sumExchangedDemand matchResultXtoY
      + uDecimalErrorY u
  ∧ uX u = X + uPoolXdelta u
  ∧ uY u = Y + uPoolYdelta u
  ∧ ∃ kx ky : nat,
      (kx ≤ length matchResultXtoY)%nat
      ∧ (ky ≤ length matchResultYtoX)%nat
      ∧ uDecimalErrorX u = Z.of_nat kx * OneDec
      ∧ uDecimalErrorY u = Z.of_nat ky * OneDec.
Proof.
  intros H. apply UpdateState_Ok in H
    as (stX & stY & HX & HY & _ & _ & _ & Hex & Hey & _ & _ & Hdx & Hdy
        & HX' & HY').
  apply forRange_settleXtoY_deltas in HX as (Hx1 & Hy1 & Hey1 & kx & Hkx & Hex1).
  apply forRange_settleYtoX_deltas in HY as (Hx2 & Hy2 & Hex2 & ky & Hky & Hey2).
  simpl in *. unfold ZeroDec in *.
  split_and!; try lia.
  exists kx, ky. split_and!; try lia.
Qed.

(** ** The heap across a whole run *)

Lemma forRange_fmap {S A B} (body : S → B → res S) (f : A → B) (acc : S)
    (l : list A) :
  forRange body acc (f <$> l) = forRange (λ st a, body st (f a)) acc l.
Proof.
  revert acc. induction l as [|a l IH]; intros acc; simpl; [done|].
  destruct (body acc (f a)); simpl; [apply IH | done].
Qed.

Lemma forRange_fillsInOrder (mX mY : list MatchResult) (st : Settlement) :
  forRange settleFill st (fillsInOrder mX mY)
  = forRange settleXtoY st mX ≫= λ st', forRange settleYtoX st' mY.
Proof.
  unfold fillsInOrder. rewrite forRange_app, forRange_fmap.
  change (λ st0 a, settleFill st0 (DirectionXtoY, a)) with settleXtoY.
  destruct (forRange settleXtoY st mX) as [st'|p]; simpl; [|done].
  by rewrite forRange_fmap.
Qed.

Lemma settleOrder_Msg (msg1 msg2 : string) (s s' : SwapMsgState)
    (m : MatchResult) :
  settleOrder msg1 msg2 s m = Ok s' → Msg s' = Msg s ∧ MsgIndex s' = MsgIndex s.
Proof.
  unfold settleOrder. intros Ho. destruct (classify s m).
  - by apply fullMatch_Ok in Ho as (-> & _).
  - by apply offByOneMatch_Ok in Ho as (-> & _).
  - by apply fractionalMatch_Ok in Ho as (-> & _).
Qed.

Lemma forRange_settleFill_conserves (l : list (Direction * MatchResult))
    (st st' : Settlement) :
  forRange settleFill st l = Ok st' →
  NoDup ((BatchMsg ∘ snd) <$> l) →
  Forall conserves (heap st) →
  (∀ dm s, dm ∈ l → heap st !! BatchMsg dm.2 = Some s →
           TransactedCoinAmt dm.2 ≤ ToDec (Amount (RemainingOfferCoin s))) →
  Forall conserves (heap st').
Proof.
  revert st. induction l as [|[d m] l IH]; intros st H Hnd Hinv Hle;
    simpl in *.
  - by injection H as <-.
  - apply bind_Ok in H as (st1 & H1 & H). unfold settleFill in H1.
    simpl in H1. apply NoDup_cons in Hnd as [Hnotin Hnd].
    apply settleStep_order in H1 as (s & s' & m1 & m2 & Hs & Ho & Hh & _).
    assert (conserves s') as Hs'.
    { eapply settleOrder_conserves; [done | |].
      - by eapply (Forall_lookup_1 conserves).
      - apply (Hle (d, m)); [left | done]. }
    apply (IH st1); [done | done | |].
    + rewrite Hh. by apply Forall_insert.
    + intros [d' m'] s0 Hin Hs0. simpl in *.
      apply (Hle (d', m')); [by right|]. simpl.
      rewrite Hh, list_lookup_insert_ne in Hs0; [done|].
      intros Heq. apply Hnotin. apply list_elem_of_fmap.
      exists (d', m'). by split.
Qed.

(** X15. Order conservation for the whole heap: when every order is
    matched at most once, every order conserves before the run and no fill
    exceeds the remaining offer of its order, every order conserves after a
    run of [UpdateState] that returns. *)
Theorem UpdateState_conserves_heap (X Y : Z) (XtoY YtoX : list ptr)
    (mX mY : list MatchResult) (h : Heap) (u : Updated) :
  UpdateState X Y XtoY YtoX mX mY h = Ok u →
  NoDup (BatchMsg <$> (mX ++ mY)) →
  Forall conserves h →
  (∀ m s, m ∈ mX ++ mY → h !! BatchMsg m = Some s →
          TransactedCoinAmt m ≤ ToDec (Amount (RemainingOfferCoin s))) →
  Forall conserves (uHeap u).
Proof.
  intros H Hnd Hinv Hle.
  apply UpdateState_Ok in H as (stX & stY & HX & HY & _ & _ & -> & _).
  apply (forRange_settleFill_conserves (fillsInOrder mX mY)
           (initSettlement h)).
  - by rewrite forRange_fillsInOrder, HX.
  - unfold fillsInOrder. rewrite fmap_app, <- !list_fmap_compose.
    by rewrite fmap_app in Hnd.
  - done.
  - intros [d m] s Hin Hs. simpl in *. apply (Hle m s); [|done].
    unfold fillsInOrder in Hin.
    apply elem_of_app in Hin as [Hin|Hin];
      apply list_elem_of_fmap in Hin as (m' & [= _ ->] & Hin);
      apply elem_of_app; auto.
Qed.

(** ** [SwapExecution] *)

Section SwapExecutionFacts.
Context `{K : Collaborators}.

(** What a run that reaches line 63 has computed. *)
Lemma swapMatching_Continue (ctx : Ctx) (liquidityPoolBatch : PoolBatch)
    (L : Matched Ctx Pool) :
  swapMatching ctx liquidityPoolBatch = Ok (Continue L) →
  let loaded :=
    GetAllNotProcessedPoolBatchSwapMsgStates ctx liquidityPoolBatch in
  loaded ≠ []
  ∧ GetPool ctx (PoolId liquidityPoolBatch) = (pool L, true)
  ∧ ctx1 L
    = SetPoolBatchSwapMsgStatesByPointer ctx (Id (pool L))
        (setExecuted true <$> loaded)
  ∧ executedMsgCount L = N.of_nat (length loaded)
  ∧ currentHeight L = BlockHeight (ctx1 L)
  ∧ ValidateStateAndExpireOrders (swapMsgStates L) (currentHeight L) false
      (setExecuted true <$> loaded) = Ok (heap1 L)
  ∧ (∃ orderMap,
       MakeOrderMap (swapMsgStates L) (denomX L) (denomY L) false (heap1 L)
       = Ok (orderMap, XtoY L, YtoX L)
       ∧ Match (SortOrderBook orderMap) (X L) (Y L) = Ok (batchResult L))
  ∧ findOrderMatches (batchResult L) (XtoY L) (YtoX L) (currentHeight L)
      (heap1 L)
    = Ok (matchResultXtoY L, matchResultYtoX L, poolXdelta1 L,
          poolYdelta1 L).
Proof.
  intros H loaded. unfold swapMatching in H. fold loaded in H.
  destruct loaded as [|s0 loaded'] eqn:Hl; [done|].
  rewrite <- Hl in *.
  replace (length loaded =? 0)%nat with false in H by (by rewrite Hl).
  destruct (GetPool ctx (PoolId liquidityPoolBatch)) as [p found].
  destruct found; simpl in H; [|done].
  apply bind_Ok in H as (h & Hh & H).
  apply bind_Ok in H as (r0 & Hr0 & H).
  apply bind_Ok in H as (r1 & Hr1 & H).
  apply bind_Ok in H as (price & Hprice & H).
  apply bind_Ok in H as ([[om xy] yx] & Hom & H).
  apply bind_Ok in H as (result & Hres & H).
  apply bind_Ok in H as ([[[mX mY] dx] dy] & Hfind & H).
  injection H as <-. simpl.
  split_and!; try done.
  - by rewrite Hl.
  - by exists om.
Qed.

(** The fills of the batch are what the matcher answers at the one
    [SwapPrice], side by side. *)
Lemma findOrderMatches_Ok (result : BatchResult) (XtoY YtoX : list ptr)
    (height : Z) (h : Heap) (mX mY : list MatchResult) (dx dy : Z) :
  findOrderMatches result XtoY YtoX height h = Ok (mX, mY, dx, dy) →
  (MatchType result = NoMatch ∧ mX = [] ∧ mY = [])
  ∨ (MatchType result ≠ NoMatch
     ∧ ∃ cX dxX dyX cY dxY dyY,
         FindOrderMatch DirectionXtoY XtoY (EX result) (SwapPrice result)
           height h = Ok (mX, cX, dxX, dyX)
         ∧ FindOrderMatch DirectionYtoX YtoX (EY result) (SwapPrice result)
             height h = Ok (mY, cY, dxY, dyY)).
Proof.
  unfold findOrderMatches.
  destruct (Z.eqb_spec (MatchType result) NoMatch) as [Heq|Hne]; simpl.
  - intros [= <- <- _ _]. by left.
  - intros H. right. split; [done|].
    apply bind_Ok in H as ([[[mX' cX] dxX] dyX] & HX & H).
    apply bind_Ok in H as ([[[mY' cY] dxY] dyY] & HY & H).
    injection H as <- <- _ _. eauto 10.
Qed.

(** C1. Single price: in every batch that reaches settlement, each fill of
    either direction is one the matcher produced for the one
    [result.SwapPrice] of price discovery.  Whatever relation [P] the
    matcher establishes between the price it is given and the fills it
    returns holds between [result.SwapPrice] and every fill of the XtoY
    side and of the YtoX side. *)
Theorem SwapExecution_single_price (ctx : Ctx)
    (liquidityPoolBatch : PoolBatch) (L : Matched Ctx Pool)
    (P : Direction → Z → MatchResult → Prop) :
  swapMatching ctx liquidityPoolBatch = Ok (Continue L) →
  (∀ d l E price height h ms c dx dy,
     FindOrderMatch d l E price height h = Ok (ms, c, dx, dy) →
     Forall (P d price) ms) →
  (∃ orderMap,
     MakeOrderMap (swapMsgStates L) (denomX L) (denomY L) false (heap1 L)
     = Ok (orderMap, XtoY L, YtoX L)
     ∧ Match (SortOrderBook orderMap) (X L) (Y L) = Ok (batchResult L))
  ∧ Forall (P DirectionXtoY (SwapPrice (batchResult L))) (matchResultXtoY L)
  ∧ Forall (P DirectionYtoX (SwapPrice (batchResult L))) (matchResultYtoX L).
Proof.
  intros H HP.
  apply swapMatching_Continue in H as (_ & _ & _ & _ & _ & _ & Hres & Hfind).
  split; [done|].
  apply findOrderMatches_Ok in Hfind
    as [(_ & -> & ->)|(_ & cX & dxX & dyX & cY & dxY & dyY & HX & HY)].
  - split; constructor.
  - split; [by eapply HP | by eapply HP].
Qed.

(** C7. No match: when price discovery answers the match type 0, the
    value line 65 tests, which is [types.NoMatch] only if that constant is
    0, [SwapExecution] returns the number of loaded messages and no error
    without calling [UpdateState] or settlement.  The only write to the
    store is the one of line 28, of the loaded states with [Executed] set
    and every other field, the remaining offer, the exchanged offer and the
    reserved fee among them, as loaded; the reserves are those of before
    whenever that write leaves them alone. *)
Theorem SwapExecution_no_match (ctx : Ctx) (liquidityPoolBatch : PoolBatch)
    (L : Matched Ctx Pool) :
  swapMatching ctx liquidityPoolBatch = Ok (Continue L) →
  MatchType (batchResult L) = 0 →
  let loaded :=
    GetAllNotProcessedPoolBatchSwapMsgStates ctx liquidityPoolBatch in
  let written := setExecuted true <$> loaded in
  let ctx' := SetPoolBatchSwapMsgStatesByPointer ctx (Id (pool L)) written in
  SwapExecution ctx liquidityPoolBatch
  = Ok (N.of_nat (length loaded), None, ctx')
  ∧ Forall2 (λ old new,
       Executed new = true
       ∧ RemainingOfferCoin new = RemainingOfferCoin old
       ∧ ExchangedOfferCoin new = ExchangedOfferCoin old
       ∧ ReservedOfferCoinFee new = ReservedOfferCoinFee old
       ∧ Succeeded new = Succeeded old
       ∧ ToBeDeleted new = ToBeDeleted old
       ∧ MsgIndex new = MsgIndex old
       ∧ Msg new = Msg old) loaded written
  ∧ ((∀ c poolId states p,
        GetReserveCoins
          (SetPoolBatchSwapMsgStatesByPointer c poolId states) p
        = GetReserveCoins c p) →
     GetReserveCoins ctx' (pool L) = GetReserveCoins ctx (pool L)).
Proof.
  intros H Hzero loaded written ctx'.
  pose proof H as H'.
  apply swapMatching_Continue in H' as (_ & _ & Hctx & Hn & _).
  split_and!.
  - unfold SwapExecution. rewrite H. simpl. unfold swapSettlement.
    rewrite Hzero. simpl. by rewrite Hn, Hctx.
  - unfold written. apply Forall2_fmap_r, Forall_Forall2_diag, Forall_forall.
    intros s _. by destruct s.
  - intros Hframe. apply Hframe.
Qed.

End SwapExecutionFacts.

(** C9. With no unprocessed swap message state in the batch,
    [SwapExecution] returns [(0, nil)] and leaves the store as it was,
    whatever [GetPool] would answer: the pool is not read.  With
    unprocessed messages and no pool, it returns [(0, ErrPoolNotExists)]
    and leaves the store as it was: no message is marked executed. *)
Theorem SwapExecution_early_returns `{K : Collaborators} (ctx : Ctx)
    (liquidityPoolBatch : PoolBatch) :
  (GetAllNotProcessedPoolBatchSwapMsgStates ctx liquidityPoolBatch = [] →
   SwapExecution ctx liquidityPoolBatch = Ok (0%N, None, ctx)
   ∧ ∀ getPool,
       SwapExecution (K := withGetPool getPool) ctx liquidityPoolBatch
       = Ok (0%N, None, ctx))
  ∧ (GetAllNotProcessedPoolBatchSwapMsgStates ctx liquidityPoolBatch ≠ [] →
     (GetPool ctx (PoolId liquidityPoolBatch)).2 = false →
     SwapExecution ctx liquidityPoolBatch
     = Ok (0%N, Some ErrPoolNotExists, ctx)).
Proof.
  split.
  - intros Hnil. split; [|intros getPool];
      unfold SwapExecution, swapMatching; simpl; by rewrite Hnil.
  - intros Hne Hfound. unfold SwapExecution, swapMatching.
    destruct (GetAllNotProcessedPoolBatchSwapMsgStates ctx
                liquidityPoolBatch) as [|s l]; [done|]. simpl.
    destruct (GetPool ctx (PoolId liquidityPoolBatch)) as [p found].
    simpl in Hfound. by rewrite Hfound.
Qed.

(** ** Aborts *)

Lemma is_Panic_bind {A B} (r : res A) (k : A → res B) :
  (∀ a, r = Ok a → is_Panic (k a)) → is_Panic (r ≫= k).
Proof.
  destruct r as [a|p]; intros H; [by apply H | by exists p].
Qed.

Lemma settleOrder_fatal (msg1 msg2 : string) (s : SwapMsgState)
    (m : MatchResult) :
  classify s m ≠ FractionalMatch →
  fatalFill s m →
  is_Panic (settleOrder msg1 msg2 s m).
Proof.
  unfold fatalFill, settleOrder. intros Hc Hfatal.
  destruct (classify s m); [| |done]; cbv zeta in Hfatal.
  - unfold fullMatch.
    apply is_Panic_bind. intros c Hcoin. apply NewCoin_Ok in Hcoin as [-> _].
    apply is_Panic_bind. intros e He. apply CoinAdd_Ok in He as [-> _].
    rewrite remainingNotMatched_spec. simpl.
    rewrite bool_decide_eq_true_2; [apply is_Panic_Panic|].
    unfold settledWhole, settled, CoinSafeSubAmount in *. simpl in *.
    destruct Hfatal as [?|[Hnz|?]]; [by left | | by right; right].
    right. left. intros Heq. apply Hnz. congruence.
  - unfold offByOneMatch.
    apply is_Panic_bind. intros c Hcoin. apply NewCoin_Ok in Hcoin as [-> _].
    apply is_Panic_bind. intros e He. apply CoinAdd_Ok in He as [-> _].
    cbv zeta. rewrite remainingNotMatched_spec. simpl.
    rewrite bool_decide_eq_true_2; [apply is_Panic_Panic|].
    unfold settledWhole, settled, CoinSafeSubAmount, clampOne, IntEqual,
      OneInt, ZeroInt in *. simpl in *.
    destruct (Z.max 0 (Amount (RemainingOfferCoin s)
                       - TruncateInt (TransactedCoinAmt m)) =? 1);
      simpl in *;
      (destruct Hfatal as [?|[Hnz|?]]; [by left | | by right; right]);
      right; left; intros Heq; apply Hnz; congruence.
Qed.

Lemma settleStep_fatal (d : Direction) (st : Settlement) (m : MatchResult)
    (s : SwapMsgState) :
  heap st !! BatchMsg m = Some s →
  classify s m ≠ FractionalMatch →
  fatalFill s m →
  is_Panic (settleStep d st m).
Proof.
  intros Hs Hc Hfatal.
  pose proof (settleOrder_fatal "remaining not matched 1"
                "remaining not matched 2" s m Hc Hfatal) as [p1 H1].
  pose proof (settleOrder_fatal "remaining not matched 3"
                "remaining not matched 4" s m Hc Hfatal) as [p2 H2].
  unfold settleOrder, classify in *.
  destruct d; simpl; unfold settleXtoY, settleYtoX, deref; rewrite Hs; simpl;
    (destruct (isFullMatch s m); [|destruct (isOffByOne s m); [|done]]);
    first [rewrite H1 | rewrite H2]; apply is_Panic_Panic.
Qed.

Lemma UpdateState_loops_Panic (X Y : Z) (XtoY YtoX : list ptr)
    (mX mY : list MatchResult) (h : Heap) :
  is_Panic (forRange settleXtoY (initSettlement h) mX
            ≫= λ st, forRange settleYtoX st mY) →
  is_Panic (UpdateState X Y XtoY YtoX mX mY h).
Proof.
  intros [p Hp]. unfold UpdateState.
  apply is_Panic_bind. intros sx _. apply is_Panic_bind. intros sy _.
  destruct (forRange settleXtoY (initSettlement h) mX) as [stX|pX];
    simpl in *; [|apply is_Panic_Panic].
  rewrite Hp. apply is_Panic_Panic.
Qed.

Lemma forRange_indexMatch_Ok (l : list MatchResult)
    (mp mp' : gmap N MatchResult) :
  forRange indexMatch mp l = Ok mp' →
  NoDup (OrderMsgIndex <$> l)
  ∧ ∀ i, i ∈ OrderMsgIndex <$> l → mp !! i = None.
Proof.
  revert mp. induction l as [|m l IH]; intros mp H; simpl in *.
  - split; [constructor | intros i Hi; by apply elem_of_nil in Hi].
  - apply bind_Ok in H as (mp1 & H1 & H). unfold indexMatch in H1.
    destruct (mp !! OrderMsgIndex m) eqn:Hm; [done|]. injection H1 as <-.
    apply IH in H as [Hnd Hfresh]. split.
    + constructor; [|done]. intros Hin. apply Hfresh in Hin.
      by rewrite lookup_insert_eq in Hin.
    + intros i Hi. apply elem_of_cons in Hi as [->|Hi]; [done|].
      pose proof (Hfresh i Hi) as Hnone.
      destruct (decide (OrderMsgIndex m = i)) as [<-|Hne].
      * by rewrite lookup_insert_eq in Hnone.
      * by rewrite lookup_insert_ne in Hnone.
Qed.

Section SwapExecutionAborts.
Context `{K : Collaborators}.

Lemma duplicateMatch_not_NoDup (L : Matched Ctx Pool) :
  duplicateMatch L →
  ¬ NoDup (OrderMsgIndex <$> (matchResultXtoY L ++ matchResultYtoX L)).
Proof.
  intros (i & j & a & b & Hij & Ha & Hb & Hab) Hnd.
  apply Hij. eapply NoDup_lookup; [exact Hnd | |].
  - rewrite list_lookup_fmap, Ha. reflexivity.
  - rewrite list_lookup_fmap, Hb. simpl. by rewrite Hab.
Qed.

Lemma fatalUpdate_Panic (L : Matched Ctx Pool) :
  fatalUpdate L →
  is_Panic (UpdateState (X L) (Y L) (XtoY L) (YtoX L) (matchResultXtoY L)
              (matchResultYtoX L) (heap1 L)).
Proof.
  intros (d & pre & post & m & st & s & Hreach & Hs & Hc & Hfatal).
  apply UpdateState_loops_Panic.
  destruct d.
  - destruct Hreach as [-> Hpre].
    apply bind_Panic_l. eapply forRange_reaches_Panic; [exact Hpre|].
    by apply (settleStep_fatal DirectionXtoY st m s).
  - destruct Hreach as [-> (stX & HX & Hpre)]. rewrite HX. simpl.
    eapply forRange_reaches_Panic; [exact Hpre|].
    by apply (settleStep_fatal DirectionYtoX st m s).
Qed.

Lemma swapSettlement_aborts (L : Matched Ctx Pool) :
  MatchType (batchResult L) ≠ 0 →
  duplicateMatch L ∨ invalidOrderBook L ∨ fatalUpdate L →
  is_Panic (swapSettlement L).
Proof.
  intros Hexec Hbroken. unfold swapSettlement.
  destruct (Z.eqb_spec (MatchType (batchResult L)) 0) as [|_]; [done|].
  destruct Hbroken as [Hdup|[Hbook|Hfatal]].
  - apply duplicateMatch_not_NoDup in Hdup.
    apply is_Panic_bind. intros u _. apply is_Panic_bind. intros price _.
    apply is_Panic_bind. intros _ _. apply is_Panic_bind. intros [ob h] _.
    destruct (negb (Validate ob price)); [apply is_Panic_Panic|].
    apply is_Panic_bind. intros h1 _. apply is_Panic_bind. intros h2 _.
    apply bind_Panic_l, not_Ok_is_Panic. intros mp Hmp.
    by apply forRange_indexMatch_Ok in Hmp as [Hnd _].
  - destruct Hbook as (u & price & ob & h & Hu & Hprice & Hob & Hval).
    rewrite Hu. simpl. rewrite Hprice. simpl.
    apply is_Panic_bind. intros _ _. rewrite Hob. simpl. rewrite Hval.
    apply is_Panic_Panic.
  - by apply bind_Panic_l, fatalUpdate_Panic.
Qed.

(** C6. In a batch that is executed, [SwapExecution] panics, and so
    returns neither a count nor an error, whenever two match results
    share an [OrderMsgIndex], whenever the order book rebuilt from the
    order states after settlement fails [Validate] at the last price
    [X'/Y'], and whenever [UpdateState] reaches a full or off-by-one fill
    after which remaining + exchanged exceeds the original offer, the
    remaining offer is not zero, or the reserved fee left is two units or
    more. *)
Theorem SwapExecution_aborts_on_broken_invariant (ctx : Ctx)
    (liquidityPoolBatch : PoolBatch) (L : Matched Ctx Pool) :
  swapMatching ctx liquidityPoolBatch = Ok (Continue L) →
  MatchType (batchResult L) ≠ 0 →
  duplicateMatch L ∨ invalidOrderBook L ∨ fatalUpdate L →
  is_Panic (SwapExecution ctx liquidityPoolBatch)
  ∧ ∀ n err ctx',
      SwapExecution ctx liquidityPoolBatch ≠ Ok (n, err, ctx').
Proof.
  intros H Hexec Hbroken.
  assert (is_Panic (SwapExecution ctx liquidityPoolBatch)) as [p Hp].
  { unfold SwapExecution. rewrite H. simpl.
    by apply swapSettlement_aborts. }
  split; [by exists p | intros n err ctx'; by rewrite Hp].
Qed.

(** The only error [SwapExecution] returns is [ErrPoolNotExists], with a
    count of zero and the store as it was. *)
Lemma SwapExecution_returned_error (ctx ctx' : Ctx)
    (liquidityPoolBatch : PoolBatch) (n : N) (e : error) :
  SwapExecution ctx liquidityPoolBatch = Ok (n, Some e, ctx') →
  e = ErrPoolNotExists ∧ n = 0%N ∧ ctx' = ctx.
Proof.
  unfold SwapExecution. intros H. apply bind_Ok in H as (r & Hr & H).
  destruct r as [n0 err0 c0|L].
  - injection H as -> -> ->. unfold swapMatching in Hr.
    destruct (length _ =? 0)%nat; [done|].
    destruct (GetPool ctx (PoolId liquidityPoolBatch)) as [p found].
    destruct found; simpl in Hr.
    + repeat (first [apply bind_Ok in Hr as (? & _ & Hr) | case_match]);
        simplify_eq.
    + by injection Hr as <- <- <-.
  - unfold swapSettlement in H.
    destruct (MatchType (batchResult L) =? 0); [done|].
    repeat (first [apply bind_Ok in H as (? & _ & H) | case_match]);
      simplify_eq.
Qed.

End SwapExecutionAborts.

(** ** The query handlers *)

(** C8. The handlers [LiquidityPools], [LiquidityPoolBatch],
    [PoolBatchSwapMsgs], [PoolBatchDepositMsgs], [PoolBatchWithdrawMsgs] and
    [Params] answer every request, nil or not, with a nil response and a nil
    error, and leave the context as it was. *)
Theorem query_stubs_return_nil `{Q : QueryKeeper} (c : QueryCtx)
    (pools : option QueryLiquidityPoolsRequest)
    (batch : option QueryLiquidityPoolBatchRequest)
    (swaps : option QueryPoolBatchSwapMsgsRequest)
    (deposits : option QueryPoolBatchDepositMsgsRequest)
    (withdraws : option QueryPoolBatchWithdrawMsgsRequest)
    (params : option QueryParamsRequest) :
  LiquidityPools c pools = (None, None, c)
  ∧ LiquidityPoolBatch c batch = (None, None, c)
  ∧ PoolBatchSwapMsgs c swaps = (None, None, c)
  ∧ PoolBatchDepositMsgs c deposits = (None, None, c)
  ∧ PoolBatchWithdrawMsgs c withdraws = (None, None, c)
  ∧ Params c params = (None, None, c).
Proof. by split_and!. Qed.

(** C10. [LiquidityPool] answers a nil request with an [InvalidArgument]
    error; it answers a request with a [NotFound] error exactly when
    [GetLiquidityPool] finds no pool of the requested id, and otherwise
    with a response that holds the pool found and a nil error.  In every
    case the context is left as it was. *)
Theorem LiquidityPool_query `{Q : QueryKeeper} (c : QueryCtx) :
  LiquidityPool c None
  = (None, Some (StatusError InvalidArgument "empty request"), c)
  ∧ ∀ req : QueryLiquidityPoolRequest,
      let found := (GetLiquidityPool c (reqPoolId req)).2 in
      ((∃ msg, LiquidityPool c (Some req)
               = (None, Some (StatusError NotFound msg), c))
       ↔ found = false)
      ∧ (found = false →
         LiquidityPool c (Some req)
         = (None,
            Some (StatusError NotFound
                    ("liquidity pool " +:+ formatUint (reqPoolId req)
                     +:+ " doesn't exist")), c))
      ∧ (found = true →
         LiquidityPool c (Some req)
         = (Some (mkQueryLiquidityPoolResponse
                    (GetLiquidityPool c (reqPoolId req)).1), None, c))
      ∧ (LiquidityPool c (Some req)).2 = c.
Proof.
  split; [done|]. intros req found. subst found. unfold LiquidityPool.
  destruct (GetLiquidityPool c (reqPoolId req)) as [p [|]]; simpl.
  - split_and!; try done. split; [intros [msg [=]] | done].
  - split_and!; try done. split; [done | eauto].
Qed.

(** * Runs on concrete batches *)

Module Runs.
Import InMemory.

Lemma walkOrders_settlesAt (d : Direction) (price : Z) (h : Heap)
    (l : list ptr) (E : Z) (ms : list MatchResult) :
  walkOrders d price h l E = Ok ms → Forall (settlesAt d price) ms.
Proof.
  revert E ms. induction l as [|p l IH]; intros E ms H; simpl in H.
  - injection H as <-. constructor.
  - apply bind_Ok in H as (s & _ & H).
    destruct (negb (inLimit d price (OrderPrice (Msg s))) || (E <=? 0));
      [by eapply IH|].
    apply bind_Ok in H as (e & He & H). apply bind_Ok in H as (rest & Hr & H).
    injection H as <-. constructor; [|by eapply IH].
    unfold settlesAt. destruct d; simpl; [done | by injection He].
Qed.

Lemma findOrderMatch_settlesAt (d : Direction) (l : list ptr)
    (E price height : Z) (h : Heap) (ms : list MatchResult) (c dx dy : Z) :
  FindOrderMatch d l E price height h = Ok (ms, c, dx, dy) →
  Forall (settlesAt d price) ms.
Proof.
  simpl. unfold findOrderMatch. intros H. apply bind_Ok in H as (ms' & Hw & H).
  apply walkOrders_settlesAt in Hw. destruct d; by injection H as <- _ _ _.
Qed.

(** In the crossing batch both fills settle at the pool price 1. *)
Lemma SwapExecution_single_price_witness :
  ∃ L, swapMatching crossing 1%N = Ok (Continue L)
       ∧ SwapPrice (batchResult L) = dec 1
       ∧ Forall (settlesAt DirectionXtoY (dec 1)) (matchResultXtoY L)
       ∧ Forall (settlesAt DirectionYtoX (dec 1)) (matchResultYtoX L)
       ∧ length (matchResultXtoY L) = 1%nat
       ∧ length (matchResultYtoX L) = 1%nat.
Proof.
  eexists. split; [vm_compute; reflexivity|].
  split; [reflexivity|].
  match goal with
  | |- context [matchResultXtoY ?L] =>
      assert (swapMatching crossing 1%N = Ok (Continue L)) as HL
        by (vm_compute; reflexivity);
      destruct (SwapExecution_single_price (K := keeper) crossing 1%N L
                  settlesAt HL
                  findOrderMatch_settlesAt) as (_ & HX & HY)
  end.
  split_and!; [exact HX | exact HY | reflexivity | reflexivity].
Defined.

(** A fill of 200 of the untouched order of 500. *)
Lemma UpdateState_order_conservation_witness :
  ∃ st' s',
    settleXtoY (initSettlement [untouched]) (fill 200) = Ok st'
    ∧ heap st' !! 0%nat = Some s'
    ∧ Amount (RemainingOfferCoin s') = 300
    ∧ conserves s'.
Proof.
  assert (∃ st', settleXtoY (initSettlement [untouched]) (fill 200) = Ok st')
    as [st' Hst] by (eexists; vm_compute; reflexivity).
  destruct (UpdateState_order_conservation DirectionXtoY
              (initSettlement [untouched]) st' (fill 200) untouched)
    as (s' & Hs' & _ & Hc).
  - reflexivity.
  - by vm_compute.
  - by vm_compute.
  - exact Hst.
  - exists st', s'. split_and!; [exact Hst | exact Hs' | | exact Hc].
    vm_compute in Hst. injection Hst as <-.
    vm_compute in Hs'. by injection Hs' as <-.
Defined.

(** A fill of all 500 of the untouched order. *)
Lemma UpdateState_full_match_witness :
  ∃ st' s',
    settleXtoY (initSettlement [untouched]) (fill 500) = Ok st'
    ∧ heap st' !! 0%nat = Some s'
    ∧ Amount (RemainingOfferCoin s') = 0
    ∧ Amount (ReservedOfferCoinFee s') ≤ 1
    ∧ Succeeded s' = true
    ∧ ToBeDeleted s' = true.
Proof.
  assert (∃ st', settleXtoY (initSettlement [untouched]) (fill 500) = Ok st')
    as [st' Hst] by (eexists; vm_compute; reflexivity).
  destruct (UpdateState_full_match DirectionXtoY
              (initSettlement [untouched]) st' (fill 500) untouched)
    as (s' & Hs' & _ & Hr & Hf & Hs & Hd).
  - reflexivity.
  - reflexivity.
  - exact Hst.
  - exists st', s'. by split_and!.
Defined.

(** A fill of 499 of the untouched order of 500 takes the off-by-one
    branch: the unit left of the offer is set to zero and [decimalErrorX]
    becomes one. *)
Lemma UpdateState_off_by_one_witness :
  classify untouched (fill 499) = OffByOneDecimal
  ∧ ∃ st',
      settleXtoY (initSettlement [untouched]) (fill 499) = Ok st'
      ∧ decimalErrorX st' = OneDec
      ∧ decimalErrorY st' = 0
      ∧ heap st' !! 0%nat = Some (settledWhole clampOne untouched (fill 499))
      ∧ Amount (RemainingOfferCoin
                  (settledWhole clampOne untouched (fill 499))) = 0
      ∧ Amount (RemainingOfferCoin (settledWhole id untouched (fill 499)))
        = 1.
Proof.
  destruct (UpdateState_off_by_one DirectionXtoY (initSettlement [untouched])
              (fill 499) untouched eq_refl) as (Hiff & _ & Hoff & _).
  assert (classify untouched (fill 499) = OffByOneDecimal) as Hc.
  { apply Hiff. vm_compute. split; [split; discriminate | by left]. }
  split; [exact Hc|].
  assert (∃ st', settleXtoY (initSettlement [untouched]) (fill 499) = Ok st')
    as [st' Hst] by (eexists; vm_compute; reflexivity).
  destruct (Hoff Hc st' Hst) as (Hx & Hy & Hh & Hz).
  exists st'.
  split_and!; [exact Hst | exact Hx | exact Hy | exact Hh | exact Hz
              | reflexivity].
Defined.

(** Two fills within the untouched order of 500 that take the fractional
    branch: 499.5, although the remaining offer minus the truncated
    transacted amount is one, and 498.5, although the remaining offer minus
    the transacted amount truncates to one.  Whichever way the truncation
    is read, the branch does not follow it. *)
Lemma UpdateState_off_by_one_counterexample :
  (TransactedCoinAmt (fillDecimal (dec 499 + half))
   ≤ ToDec (Amount (RemainingOfferCoin untouched))
   ∧ Amount (RemainingOfferCoin untouched)
     ≤ Amount (OfferCoin (Msg untouched)))
  ∧ classify untouched (fillDecimal (dec 499 + half)) = FractionalMatch
  ∧ Amount (RemainingOfferCoin untouched)
    - TruncateInt (TransactedCoinAmt (fillDecimal (dec 499 + half))) = 1
  ∧ classify untouched (fillDecimal (dec 498 + half)) = FractionalMatch
  ∧ TruncateInt
      (DecSub (ToDec (Amount (RemainingOfferCoin untouched)))
         (TransactedCoinAmt (fillDecimal (dec 498 + half)))) = 1
  ∧ (∃ st',
       settleXtoY (initSettlement [untouched]) (fillDecimal (dec 499 + half))
       = Ok st'
       ∧ fractionalCntX st' = 1
       ∧ decimalErrorX st' = 0)
  ∧ ¬ (∀ s m,
         TransactedCoinAmt m ≤ ToDec (Amount (RemainingOfferCoin s)) →
         Amount (RemainingOfferCoin s) ≤ Amount (OfferCoin (Msg s)) →
         classify s m = OffByOneDecimal
         ↔ Amount (RemainingOfferCoin s)
           - TruncateInt (TransactedCoinAmt m) = 1)
  ∧ ¬ (∀ s m,
         TransactedCoinAmt m ≤ ToDec (Amount (RemainingOfferCoin s)) →
         Amount (RemainingOfferCoin s) ≤ Amount (OfferCoin (Msg s)) →
         classify s m = OffByOneDecimal
         ↔ TruncateInt
             (DecSub (ToDec (Amount (RemainingOfferCoin s)))
                (TransactedCoinAmt m)) = 1).
Proof.
  split_and!.
  - vm_compute. discriminate.
  - vm_compute. discriminate.
  - reflexivity.
  - reflexivity.
  - reflexivity.
  - reflexivity.
  - eexists. split; [vm_compute; reflexivity|]. split; reflexivity.
  - intros H.
    specialize (H untouched (fillDecimal (dec 499 + half))).
    assert (classify untouched (fillDecimal (dec 499 + half))
            = OffByOneDecimal) as Hc.
    { apply H; [vm_compute; discriminate | vm_compute; discriminate
               | reflexivity]. }
    vm_compute in Hc. discriminate Hc.
  - intros H.
    specialize (H untouched (fillDecimal (dec 498 + half))).
    assert (classify untouched (fillDecimal (dec 498 + half))
            = OffByOneDecimal) as Hc.
    { apply H; [vm_compute; discriminate | vm_compute; discriminate
               | reflexivity]. }
    vm_compute in Hc. discriminate Hc.
Qed.

(** The two fills of the crossing batch. *)
Lemma UpdateState_pool_deltas_witness :
  ∃ u,
    UpdateState (dec 1000000) (dec 1000000) [0%nat] [1%nat]
      [mkMatchResult 1 (dec 500) (dec 500) (DecMul (dec 500) halfFeeRate)
         0%nat]
      [mkMatchResult 2 (dec 500) (dec 500) (DecMul (dec 500) halfFeeRate)
         1%nat]
      (setExecuted true <$> states crossing) = Ok u
    ∧ uPoolXdelta u = 0
    ∧ uPoolYdelta u = 0
    ∧ uX u = dec 1000000 + uPoolXdelta u
    ∧ uY u = dec 1000000 + uPoolYdelta u.
Proof.
  eexists. split; [vm_compute; reflexivity|].
  match goal with
  | |- context [uPoolXdelta ?u] =>
      assert (UpdateState (dec 1000000) (dec 1000000) [0%nat] [1%nat]
                [mkMatchResult 1 (dec 500) (dec 500)
                   (DecMul (dec 500) halfFeeRate) 0%nat]
                [mkMatchResult 2 (dec 500) (dec 500)
                   (DecMul (dec 500) halfFeeRate) 1%nat]
                (setExecuted true <$> states crossing) = Ok u) as Hu
        by (vm_compute; reflexivity);
      destruct (UpdateState_pool_deltas _ _ _ _ _ _ _ _ Hu)
        as (_ & _ & HX & HY & _)
  end.
  split_and!; [reflexivity | reflexivity | exact HX | exact HY].
Defined.

(** The over-reserved order is filled whole and two units or more of its
    reserved fee are left: the batch aborts. *)
Lemma SwapExecution_aborts_on_broken_invariant_witness :
  is_Panic (SwapExecution overReserved 1%N)
  ∧ ∀ n err ctx', SwapExecution overReserved 1%N ≠ Ok (n, err, ctx').
Proof.
  assert (∃ L, swapMatching overReserved 1%N = Ok (Continue L)
               ∧ MatchType (batchResult L) ≠ 0
               ∧ fatalUpdate L) as (L & HL & Hexec & Hfatal).
  { eexists. split; [vm_compute; reflexivity|]. split; [by vm_compute|].
    exists DirectionXtoY, [], [], (fill 500),
      (initSettlement [setExecuted true
                         (order 1 "denomx" "denomy" 500 500 0 5
                            (dec 12 `div` 10))]),
      (setExecuted true
         (order 1 "denomx" "denomy" 500 500 0 5 (dec 12 `div` 10))).
    split_and!.
    - reflexivity.
    - reflexivity.
    - reflexivity.
    - by vm_compute.
    - unfold fatalFill. cbv zeta. right. right. by vm_compute. }
  apply (SwapExecution_aborts_on_broken_invariant (K := keeper)
           overReserved 1%N L HL
           Hexec).
  right. right. exact Hfatal.
Defined.

(** The batch whose one order is out of limit returns the count 1 after
    the write of line 28 alone. *)
Lemma SwapExecution_no_match_witness :
  SwapExecution apart 1%N
  = Ok (1%N, None,
        mkStore 10 pool1 (setExecuted true <$> states apart))
  ∧ GetReserveCoins
      (mkStore 10 pool1 (setExecuted true <$> states apart)) 1%N
    = GetReserveCoins apart 1%N.
Proof.
  assert (∃ L, swapMatching apart 1%N = Ok (Continue L)
               ∧ MatchType (batchResult L) = 0) as (L & HL & Hzero).
  { eexists. split; [vm_compute; reflexivity | reflexivity]. }
  destruct (SwapExecution_no_match (K := keeper) apart 1%N L HL Hzero)
    as (Hrun & _ & Hres).
  split; [|reflexivity].
  rewrite Hrun. f_equal.
Defined.

(** With [NoMatch] at 2, the batch whose one order is out of limit has
    the match type [NoMatch] and no fill, and it is not returned at
    line 65: it goes through [UpdateState] to settlement, whose mark is on
    the store returned. *)
Lemma SwapExecution_no_match_counterexample :
  (∃ L,
     swapMatching (K := keeperNoMatchTwo) apart 1%N = Ok (Continue L)
     ∧ MatchType (batchResult L) = @NoMatch keeperNoMatchTwo
     ∧ matchResultXtoY L ++ matchResultYtoX L = []
     ∧ ctx1 L = mkStore 10 pool1 (setExecuted true <$> states apart)
     ∧ SwapExecution (K := keeperNoMatchTwo) apart 1%N
       = Ok (1%N, None,
             mkStore 1010 pool1 (setExecuted true <$> states apart)))
  ∧ ¬ (∀ (K : Collaborators) (ctx : Ctx) (liquidityPoolBatch : PoolBatch)
         (L : Matched Ctx Pool),
         swapMatching ctx liquidityPoolBatch = Ok (Continue L) →
         MatchType (batchResult L) = NoMatch →
         SwapExecution ctx liquidityPoolBatch
         = Ok (executedMsgCount L, None, ctx1 L)).
Proof.
  assert (∃ L,
     swapMatching (K := keeperNoMatchTwo) apart 1%N = Ok (Continue L)
     ∧ MatchType (batchResult L) = @NoMatch keeperNoMatchTwo
     ∧ matchResultXtoY L ++ matchResultYtoX L = []
     ∧ ctx1 L = mkStore 10 pool1 (setExecuted true <$> states apart)
     ∧ SwapExecution (K := keeperNoMatchTwo) apart 1%N
       = Ok (1%N, None,
             mkStore 1010 pool1 (setExecuted true <$> states apart)))
    as (L & HL & Hno & Hnil & Hctx & Hrun).
  { eexists. split; [vm_compute; reflexivity|].
    split_and!; [reflexivity | reflexivity | reflexivity
                | vm_compute; reflexivity]. }
  split.
  - exists L. split_and!; [exact HL | exact Hno | exact Hnil | exact Hctx
                          | exact Hrun].
  - intros H. specialize (H keeperNoMatchTwo apart 1%N L HL Hno).
    rewrite Hrun, Hctx in H. clear - H. vm_compute in H. discriminate H.
Qed.

(** The batch without message and the batch without pool. *)
Lemma SwapExecution_early_returns_witness :
  SwapExecution empty 1%N = Ok (0%N, None, empty)
  ∧ SwapExecution poolless 1%N = Ok (0%N, Some ErrPoolNotExists, poolless).
Proof.
  split.
  - by apply (proj1 (SwapExecution_early_returns (K := keeper) empty 1%N)).
  - apply (proj2 (SwapExecution_early_returns (K := keeper) poolless 1%N)).
    + by vm_compute.
    + reflexivity.
Defined.

End Runs.

Module QueryRuns.
Import InMemoryQuery.

(** Pool 1 is found and pool 2 is not. *)
Lemma LiquidityPool_query_witness :
  LiquidityPool onePool (Some (mkQueryLiquidityPoolRequest 1))
  = (Some (mkQueryLiquidityPoolResponse (1%N, ["denomx"; "denomy"])), None,
     onePool)
  ∧ LiquidityPool onePool (Some (mkQueryLiquidityPoolRequest 2))
    = (None,
       Some (StatusError NotFound "liquidity pool 2 doesn't exist"),
       onePool).
Proof.
  destruct (LiquidityPool_query (Q := keeper) onePool) as [_ H]. split.
  - by apply (H (mkQueryLiquidityPoolRequest 1)).
  - by apply (H (mkQueryLiquidityPoolRequest 2)).
Defined.

End QueryRuns.

(** * Further properties of [UpdateState] *)

(** ** The two sorts (lines 116-121) *)

Section SliceStable.
Context {A : Type} (less : A → A → bool).

Lemma insertStable_Permutation (x : A) (l : list A) :
  insertStable less x l ≡ₚ x :: l.
Proof.
  induction l as [|y l IH]; simpl; [done|].
  destruct (less y x); [|done]. rewrite IH. apply Permutation_swap.
Qed.

Lemma SliceStable_Permutation (l : list A) : SliceStable less l ≡ₚ l.
Proof.
  unfold SliceStable. induction l as [|x l IH]; simpl; [done|].
  by rewrite insertStable_Permutation, IH.
Qed.

(** [a] may stand before [b] when [b] is not less than [a]. *)
Hypothesis less_asym : ∀ a b, less a b = true → less b a = false.
Hypothesis less_trans :
  ∀ a b c, less b a = false → less c b = false → less c a = false.

Lemma insertStable_StronglySorted (x : A) (l : list A) :
  StronglySorted (λ a b, less b a = false) l →
  StronglySorted (λ a b, less b a = false) (insertStable less x l).
Proof.
  induction 1 as [|y l Hsorted IH Hall]; simpl.
  - repeat constructor.
  - destruct (less y x) eqn:Hyx.
    + constructor; [done|].
      rewrite insertStable_Permutation. constructor; [|done].
      by apply less_asym.
    + constructor; [by constructor|]. constructor; [done|].
      eapply Forall_impl; [exact Hall|]. intros z Hz. simpl in *.
      by apply (less_trans x y z).
Qed.

Lemma SliceStable_StronglySorted (l : list A) :
  StronglySorted (λ a b, less b a = false) (SliceStable less l).
Proof.
  unfold SliceStable. induction l as [|x l IH]; simpl; [constructor|].
  by apply insertStable_StronglySorted.
Qed.

(** Elements that [less] does not tell apart keep their order. *)
Lemma insertStable_filter (P : A → Prop) `{∀ a, Decision (P a)} (x : A)
    (l : list A) :
  (∀ a b, P a → P b → less a b = false) →
  filter P (insertStable less x l) = filter P (x :: l).
Proof.
  intros Hsame. induction l as [|y l IH]; simpl; [done|].
  destruct (less y x) eqn:Hyx; [|done].
  rewrite filter_cons, IH, !filter_cons.
  destruct (decide (P y)) as [Hy|Hy]; destruct (decide (P x)) as [Hx|Hx];
    try done.
  by rewrite (Hsame y x Hy Hx) in Hyx.
Qed.

Lemma SliceStable_filter (P : A → Prop) `{∀ a, Decision (P a)}
    (l : list A) :
  (∀ a b, P a → P b → less a b = false) →
  filter P (SliceStable less l) = filter P l.
Proof.
  intros Hsame. unfold SliceStable. induction l as [|x l IH]; simpl; [done|].
  rewrite insertStable_filter by done. by rewrite !filter_cons, IH.
Qed.

End SliceStable.

Lemma insertStable_keyed {A} (rel : Z → Z → bool) (k : A → Z) (x : A)
    (l : list A) :
  insertStable (λ a b : A * Z, rel a.2 b.2) (x, k x) ((λ p, (p, k p)) <$> l)
  = (λ p, (p, k p)) <$> insertStable (λ p q, rel (k p) (k q)) x l.
Proof.
  induction l as [|y l IH]; simpl; [done|].
  destruct (rel (k y) (k x)); simpl; [|done]. f_equal. exact IH.
Qed.

(** Sorting pairs by their key and dropping the keys sorts by the key. *)
Lemma SliceStable_keyed {A} (rel : Z → Z → bool) (k : A → Z) (l : list A) :
  (SliceStable (λ a b : A * Z, rel a.2 b.2) ((λ p, (p, k p)) <$> l)).*1
  = SliceStable (λ p q, rel (k p) (k q)) l.
Proof.
  assert (SliceStable (λ a b : A * Z, rel a.2 b.2) ((λ p, (p, k p)) <$> l)
          = (λ p, (p, k p)) <$> SliceStable (λ p q, rel (k p) (k q)) l)
    as ->.
  { unfold SliceStable. induction l as [|x l IH]; simpl; [done|].
    etrans; [|apply insertStable_keyed]. f_equal. exact IH. }
  generalize (SliceStable (λ p q, rel (k p) (k q)) l). intros l'.
  induction l' as [|x l' IH]; simpl; [done|]. f_equal. exact IH.
Qed.

Lemma mapM_deref_Ok (h : Heap) (l : list ptr) (keyed : list (ptr * Z)) :
  mapM (λ p, s ← deref h p; Ok (p, OrderPrice (Msg s))) l = Ok keyed →
  keyed = (λ p, (p, priceOr0 h p)) <$> l
  ∧ Forall (λ p, is_Some (h !! p)) l.
Proof.
  revert keyed. induction l as [|p l IH]; intros keyed H; simpl in H.
  - injection H as <-. by split.
  - apply bind_Ok in H as ([q v] & Hq & H).
    apply bind_Ok in H as (rest & Hrest & H). injection H as <-.
    apply IH in Hrest as [-> Hall]. unfold deref in Hq.
    destruct (h !! p) as [s|] eqn:Hs; [|done]. simpl in Hq.
    injection Hq as <- <-. split.
    + simpl. unfold priceOr0, orderPriceAt. by rewrite Hs.
    + constructor; [by eexists | done].
Qed.

(** A sort that returns has sorted stably by the limit prices. *)
Lemma sortByOrderPrice_Ok (rel : Z → Z → bool) (h : Heap)
    (l l' : list ptr) :
  sortByOrderPrice rel h l = Ok l' →
  l' = SliceStable (λ p q, rel (priceOr0 h p) (priceOr0 h q)) l
  ∧ ((2 ≤ length l)%nat → Forall (λ p, is_Some (h !! p)) l).
Proof.
  unfold sortByOrderPrice. destruct (Nat.ltb_spec (length l) 2) as [Hlt|Hge].
  - intros [= <-]. split; [|lia].
    destruct l as [|x [|y l]]; simpl in *; [done | done | lia].
  - intros H. apply bind_Ok in H as (keyed & Hk & H). injection H as <-.
    apply mapM_deref_Ok in Hk as [-> Hall]. split; [|done].
    apply SliceStable_keyed.
Qed.

Lemma StronglySorted_weaken {A} (R R' : A → A → Prop) (l : list A) :
  (∀ a b, R a b → R' a b) → StronglySorted R l → StronglySorted R' l.
Proof.
  intros Himpl. induction 1 as [|x l Hs IH Hall]; constructor; [done|].
  eapply Forall_impl; [exact Hall | auto].
Qed.

(** X1. The slices [UpdateState] returns are its arguments sorted: [XtoY]
    is a permutation of the argument in which no order stands before one
    of a higher limit price, and [YtoX] is a permutation of the argument in
    which no order stands before one of a lower limit price. *)
Theorem UpdateState_sorts_orders (X Y : Z) (XtoY YtoX : list ptr)
    (mX mY : list MatchResult) (h : Heap) (u : Updated) :
  UpdateState X Y XtoY YtoX mX mY h = Ok u →
  uXtoY u ≡ₚ XtoY
  ∧ StronglySorted
      (λ p q, ∀ sp sq, h !! p = Some sp → h !! q = Some sq →
                       OrderPrice (Msg sq) ≤ OrderPrice (Msg sp))
      (uXtoY u)
  ∧ uYtoX u ≡ₚ YtoX
  ∧ StronglySorted
      (λ p q, ∀ sp sq, h !! p = Some sp → h !! q = Some sq →
                       OrderPrice (Msg sp) ≤ OrderPrice (Msg sq))
      (uYtoX u).
Proof.
  intros H.
  apply UpdateState_Ok in H as (_ & _ & _ & _ & HsX & HsY & _).
  apply sortByOrderPrice_Ok in HsX as [-> _].
  apply sortByOrderPrice_Ok in HsY as [-> _].
  split_and!.
  - apply SliceStable_Permutation.
  - eapply StronglySorted_weaken;
      [|apply (SliceStable_StronglySorted
                 (λ p q, DecGT (priceOr0 h p) (priceOr0 h q)))].
    + simpl. unfold DecGT, priceOr0, orderPriceAt.
      intros p q Hpq sp sq Hp Hq. rewrite Hp, Hq in Hpq. simpl in Hpq.
      rewrite Z.gtb_ltb in Hpq. apply Z.ltb_ge in Hpq. lia.
    + unfold DecGT. intros a b Hab. rewrite Z.gtb_ltb in *. apply Z.ltb_lt in Hab.
      apply Z.ltb_ge. lia.
    + unfold DecGT. intros a b c Hab Hbc. rewrite Z.gtb_ltb, Z.ltb_ge in *.
      lia.
  - apply SliceStable_Permutation.
  - eapply StronglySorted_weaken;
      [|apply (SliceStable_StronglySorted
                 (λ p q, DecLT (priceOr0 h p) (priceOr0 h q)))].
    + simpl. unfold DecLT, priceOr0, orderPriceAt.
      intros p q Hpq sp sq Hp Hq. rewrite Hp, Hq in Hpq. simpl in Hpq.
      apply Z.ltb_ge in Hpq. lia.
    + unfold DecLT. intros a b Hab. apply Z.ltb_lt in Hab.
      apply Z.ltb_ge. lia.
    + unfold DecLT. intros a b c Hab Hbc. rewrite Z.ltb_ge in *. lia.
Qed.

(** X2. The sorts are stable: among the orders of one limit price, the
    returned [XtoY] and [YtoX] keep the order of the arguments. *)
Theorem UpdateState_sorts_stably (X Y : Z) (XtoY YtoX : list ptr)
    (mX mY : list MatchResult) (h : Heap) (u : Updated) (price : Z) :
  UpdateState X Y XtoY YtoX mX mY h = Ok u →
  filter (λ p, orderPriceAt h p = Some price) (uXtoY u)
  = filter (λ p, orderPriceAt h p = Some price) XtoY
  ∧ filter (λ p, orderPriceAt h p = Some price) (uYtoX u)
    = filter (λ p, orderPriceAt h p = Some price) YtoX.
Proof.
  intros H.
  apply UpdateState_Ok in H as (_ & _ & _ & _ & HsX & HsY & _).
  apply sortByOrderPrice_Ok in HsX as [-> _].
  apply sortByOrderPrice_Ok in HsY as [-> _].
  split; apply SliceStable_filter; intros a b Ha Hb;
    unfold priceOr0; rewrite Ha, Hb; simpl; unfold DecGT, DecLT.
  - rewrite Z.gtb_ltb. apply Z.ltb_irrefl.
  - apply Z.ltb_irrefl.
Qed.

(** ** What an iteration does to its order *)

Lemma settleOrder_Ok (msg1 msg2 : string) (s s' : SwapMsgState)
    (m : MatchResult) :
  settleOrder msg1 msg2 s m = Ok s' →
  0 ≤ TruncateInt (TransactedCoinAmt m)
  ∧ Succeeded s' = true
  ∧ ToBeDeleted s'
    = match classify s m with FractionalMatch => false | _ => true end
  ∧ ExchangedOfferCoin s'
    = mkCoin (Denom (ExchangedOfferCoin s))
        (Amount (ExchangedOfferCoin s) + TruncateInt (TransactedCoinAmt m))
  ∧ ReservedOfferCoinFee s'
    = CoinSafeSubAmount (ReservedOfferCoinFee s)
        (TruncateInt (OfferCoinFeeAmt m))
  ∧ sameOrder s s'.
Proof.
  unfold settleOrder, sameOrder. intros H. destruct (classify s m).
  - apply fullMatch_Ok in H as (-> & Ht & _). by split_and!.
  - apply offByOneMatch_Ok in H as (-> & Ht & _). by split_and!.
  - apply fractionalMatch_Ok in H as (-> & Ht). by split_and!.
Qed.

(** X3. An iteration of either loop that returns has marked its order
    succeeded, added the truncated transacted amount, which is not
    negative, to the exchanged offer, taken the truncated fee amount off
    the reserved fee with [CoinSafeSubAmount], and set [ToBeDeleted]
    exactly when the branch is not the fractional one; it has written to
    no other order. *)
Theorem UpdateState_iteration (d : Direction) (st st' : Settlement)
    (m : MatchResult) (s : SwapMsgState) :
  heap st !! BatchMsg m = Some s →
  settleStep d st m = Ok st' →
  ∃ s',
    heap st' = <[BatchMsg m := s']> (heap st)
    ∧ heap st' !! BatchMsg m = Some s'
    ∧ 0 ≤ TruncateInt (TransactedCoinAmt m)
    ∧ Succeeded s' = true
    ∧ ToBeDeleted s'
      = match classify s m with FractionalMatch => false | _ => true end
    ∧ ExchangedOfferCoin s'
      = mkCoin (Denom (ExchangedOfferCoin s))
          (Amount (ExchangedOfferCoin s)
           + TruncateInt (TransactedCoinAmt m))
    ∧ ReservedOfferCoinFee s'
      = CoinSafeSubAmount (ReservedOfferCoinFee s)
          (TruncateInt (OfferCoinFeeAmt m))
    ∧ sameOrder s s'.
Proof.
  intros Hs H.
  apply settleStep_order in H as (s0 & s' & m1 & m2 & Hs0 & Ho & Hh & Hs').
  assert (s0 = s) as -> by congruence.
  apply settleOrder_Ok in Ho as (? & ? & ? & ? & ? & ?).
  exists s'. by split_and!.
Qed.

(** X4. A full or off-by-one iteration returns only for a fill that uses
    the order up: exchanged plus the truncated transacted amount does not
    exceed the original offer, the remaining offer exceeds the truncated
    transacted amount by nothing (by at most one in the off-by-one branch),
    at most one unit of the reserved fee is left, and the remaining and
    the exchanged offer are in the denomination of the original offer. *)
Theorem UpdateState_whole_fill_accepted (d : Direction) (st st' : Settlement)
    (m : MatchResult) (s : SwapMsgState) :
  heap st !! BatchMsg m = Some s →
  classify s m ≠ FractionalMatch →
  settleStep d st m = Ok st' →
  Amount (ExchangedOfferCoin s) + TruncateInt (TransactedCoinAmt m)
  ≤ Amount (OfferCoin (Msg s))
  ∧ Amount (RemainingOfferCoin s) - TruncateInt (TransactedCoinAmt m)
    ≤ match classify s m with OffByOneDecimal => 1 | _ => 0 end
  ∧ Amount (ReservedOfferCoinFee s) - TruncateInt (OfferCoinFeeAmt m) ≤ 1
  ∧ Denom (RemainingOfferCoin s) = Denom (OfferCoin (Msg s))
  ∧ Denom (ExchangedOfferCoin s) = Denom (OfferCoin (Msg s)).
Proof.
  intros Hs Hc H.
  apply settleStep_order in H as (s0 & s' & m1 & m2 & Hs0 & Ho & _ & _).
  assert (s0 = s) as -> by congruence.
  unfold settleOrder in Ho.
  destruct (classify s m) eqn:Hclass; [| |done].
  - unfold fullMatch in Ho.
    apply bind_Ok in Ho as (c & Hcoin & Ho).
    apply NewCoin_Ok in Hcoin as [-> _].
    apply bind_Ok in Ho as (e & He & Ho). apply CoinAdd_Ok in He as [-> Hd].
    rewrite remainingNotMatched_spec in Ho. simpl in Ho.
    case_bool_decide as Hbad; [done|].
    unfold CoinSafeSubAmount in *. simpl in *.
    assert (mkCoin (Denom (RemainingOfferCoin s))
              (Z.max 0 (Amount (RemainingOfferCoin s)
                        - TruncateInt (TransactedCoinAmt m)))
            = mkCoin (Denom (OfferCoin (Msg s))) 0) as [= Hdr Hz].
    { match goal with |- ?a = ?b => destruct (decide (a = b)) as [|Hne] end;
        [done|]. destruct Hbad; auto. }
    split_and!; try lia; congruence.
  - unfold offByOneMatch in Ho.
    apply bind_Ok in Ho as (c & Hcoin & Ho).
    apply NewCoin_Ok in Hcoin as [-> _].
    apply bind_Ok in Ho as (e & He & Ho). apply CoinAdd_Ok in He as [-> Hd].
    cbv zeta in Ho. rewrite remainingNotMatched_spec in Ho. simpl in Ho.
    case_bool_decide as Hbad; [done|].
    unfold CoinSafeSubAmount, IntEqual, OneInt, ZeroInt in *. simpl in *.
    destruct (Z.eqb_spec
                (Z.max 0 (Amount (RemainingOfferCoin s)
                          - TruncateInt (TransactedCoinAmt m))) 1)
      as [Hone|Hnone]; simpl in *.
    + assert (mkCoin (Denom (RemainingOfferCoin s)) 0
              = mkCoin (Denom (OfferCoin (Msg s))) 0) as [= Hdr].
      { match goal with |- ?a = ?b => destruct (decide (a = b)) as [|Hne] end;
          [done|]. destruct Hbad; auto. }
      split_and!; try lia; congruence.
    + assert (mkCoin (Denom (RemainingOfferCoin s))
                (Z.max 0 (Amount (RemainingOfferCoin s)
                          - TruncateInt (TransactedCoinAmt m)))
              = mkCoin (Denom (OfferCoin (Msg s))) 0) as [= Hdr Hz].
      { match goal with |- ?a = ?b => destruct (decide (a = b)) as [|Hne] end;
          [done|]. destruct Hbad; auto. }
      split_and!; try lia; congruence.
Qed.

(** ** The heap across a run *)

Lemma sameOrder_refl (s : SwapMsgState) : sameOrder s s.
Proof. by unfold sameOrder. Qed.

Lemma sameOrder_trans (s1 s2 s3 : SwapMsgState) :
  sameOrder s1 s2 → sameOrder s2 s3 → sameOrder s1 s3.
Proof. unfold sameOrder. intros (?&?&?&?&?) (?&?&?&?&?). split_and!; congruence. Qed.

Lemma settleFill_Ok (st st' : Settlement) (dm : Direction * MatchResult) :
  settleFill st dm = Ok st' →
  ∃ s s' msg1 msg2,
    heap st !! BatchMsg dm.2 = Some s
    ∧ settleOrder msg1 msg2 s dm.2 = Ok s'
    ∧ heap st' = <[BatchMsg dm.2 := s']> (heap st).
Proof.
  unfold settleFill. intros H.
  apply settleStep_order in H as (s & s' & m1 & m2 & ? & ? & ? & _).
  eauto 10.
Qed.

Lemma forRange_settleFill_heap (l : list (Direction * MatchResult))
    (st st' : Settlement) :
  forRange settleFill st l = Ok st' →
  length (heap st') = length (heap st)
  ∧ (∀ p, p ∉ (BatchMsg ∘ snd) <$> l → heap st' !! p = heap st !! p)
  ∧ (∀ p s, heap st !! p = Some s →
            ∃ s', heap st' !! p = Some s' ∧ sameOrder s s')
  ∧ Forall (λ dm, is_Some (heap st !! BatchMsg dm.2)
                  ∧ 0 ≤ TruncateInt (TransactedCoinAmt dm.2)) l.
Proof.
  revert st. induction l as [|[d m] l IH]; intros st H; simpl in H.
  - injection H as <-. split_and!; eauto using sameOrder_refl.
  - apply bind_Ok in H as (st1 & H1 & H).
    apply settleFill_Ok in H1 as (s & s' & m1 & m2 & Hs & Ho & Hh).
    simpl in *.
    apply settleOrder_Ok in Ho as (Ht & _ & _ & _ & _ & Hsame).
    apply IH in H as (Hlen & Hframe & Hid & Hall).
    rewrite Hh, length_insert in Hlen.
    split_and!.
    + done.
    + intros p Hp. apply not_elem_of_cons in Hp as [Hne Hp].
      rewrite (Hframe p Hp), Hh. by apply list_lookup_insert_ne.
    + intros p s0 Hs0. destruct (decide (p = BatchMsg m)) as [->|Hne].
      * assert (s0 = s) as -> by congruence.
        destruct (Hid (BatchMsg m) s') as (s'' & Hs'' & Hsame').
        { rewrite Hh. apply list_lookup_insert_eq. by eapply lookup_lt_Some. }
        exists s''. split; [done|]. by eapply sameOrder_trans.
      * apply Hid. rewrite Hh. by rewrite list_lookup_insert_ne.
    + constructor; [by split; [eexists|]|].
      eapply Forall_impl; [exact Hall|]. intros [d' m'] [[s0 Hs0] Ht'].
      split; [|done]. simpl in *. apply lookup_lt_is_Some.
      apply lookup_lt_Some in Hs0. by rewrite Hh, length_insert in Hs0.
Qed.

Lemma UpdateState_fills (X Y : Z) (XtoY YtoX : list ptr)
    (mX mY : list MatchResult) (h : Heap) (u : Updated) :
  UpdateState X Y XtoY YtoX mX mY h = Ok u →
  ∃ st, forRange settleFill (initSettlement h) (fillsInOrder mX mY) = Ok st
        ∧ uHeap u = heap st
        ∧ uDecimalErrorX u = decimalErrorX st
        ∧ uDecimalErrorY u = decimalErrorY st
        ∧ uFractionalCntX u = fractionalCntX st
        ∧ uFractionalCntY u = fractionalCntY st.
Proof.
  intros H. apply UpdateState_Ok in H
    as (stX & stY & HX & HY & _ & _ & ? & ? & ? & ? & ? & _).
  exists stY. rewrite forRange_fillsInOrder, HX. by split_and!.
Qed.

Lemma fillsInOrder_ptrs (mX mY : list MatchResult) :
  (BatchMsg ∘ snd) <$> fillsInOrder mX mY = BatchMsg <$> (mX ++ mY).
Proof.
  unfold fillsInOrder. by rewrite !fmap_app, <- !list_fmap_compose.
Qed.

Lemma elem_of_fillsInOrder (mX mY : list MatchResult) (m : MatchResult) :
  m ∈ mX ++ mY ↔ ∃ d, (d, m) ∈ fillsInOrder mX mY.
Proof.
  unfold fillsInOrder. rewrite elem_of_app. split.
  - intros [H|H]; [exists DirectionXtoY | exists DirectionYtoX];
      apply elem_of_app; [left | right]; apply list_elem_of_fmap; eauto.
  - intros [d H]. apply elem_of_app in H as [H|H];
      apply list_elem_of_fmap in H as (m' & [= _ ->] & H); auto.
Qed.

(** X5. A run of [UpdateState] that returns leaves the heap at its
    length and every order that no match result points to as it was. *)
Theorem UpdateState_frame (X Y : Z) (XtoY YtoX : list ptr)
    (mX mY : list MatchResult) (h : Heap) (u : Updated) :
  UpdateState X Y XtoY YtoX mX mY h = Ok u →
  length (uHeap u) = length h
  ∧ ∀ p, p ∉ BatchMsg <$> (mX ++ mY) → uHeap u !! p = h !! p.
Proof.
  intros H. apply UpdateState_fills in H as (st & H & -> & _).
  apply forRange_settleFill_heap in H as (Hlen & Hframe & _).
  rewrite fillsInOrder_ptrs in Hframe. by split.
Qed.

(** X6. A run of [UpdateState] that returns has changed, on no order of
    the heap, the message index, the executed flag, the expiry height, the
    swap message with its original offer and limit price, or the
    denomination of the exchanged offer. *)
Theorem UpdateState_keeps_orders (X Y : Z) (XtoY YtoX : list ptr)
    (mX mY : list MatchResult) (h : Heap) (u : Updated) (p : ptr)
    (s : SwapMsgState) :
  UpdateState X Y XtoY YtoX mX mY h = Ok u →
  h !! p = Some s →
  ∃ s', uHeap u !! p = Some s' ∧ sameOrder s s'.
Proof.
  intros H Hs. apply UpdateState_fills in H as (st & H & -> & _).
  apply forRange_settleFill_heap in H as (_ & _ & Hid & _). by apply Hid.
Qed.

(** X7. [UpdateState] returns only if every match result points to an
    order of the heap and transacts more than minus one: a nil
    [BatchMsg] and a fill of a negative number of units abort the run. *)
Theorem UpdateState_needs_orders (X Y : Z) (XtoY YtoX : list ptr)
    (mX mY : list MatchResult) (h : Heap) (u : Updated) (m : MatchResult) :
  UpdateState X Y XtoY YtoX mX mY h = Ok u →
  m ∈ mX ++ mY →
  is_Some (h !! BatchMsg m) ∧ - OneDec < TransactedCoinAmt m.
Proof.
  intros H Hm. apply UpdateState_fills in H as (st & H & _).
  apply forRange_settleFill_heap in H as (_ & _ & _ & Hall).
  apply elem_of_fillsInOrder in Hm as [d Hm].
  rewrite Forall_forall in Hall. destruct (Hall _ Hm) as [Hsome Ht].
  split; [done|]. simpl in Ht. clear - Ht.
  unfold TruncateInt, OneDec in *. pose proof precisionReuse_pos as HP.
  generalize dependent precisionReuse. intros P Ht HP.
  destruct (Z_lt_le_dec (- P) (TransactedCoinAmt m)) as [|Hle]; [done|].
  exfalso.
  pose proof (Z.quot_rem' (TransactedCoinAmt m) P) as Hqr.
  assert (- P < Z.rem (TransactedCoinAmt m) P ≤ 0) as Hb
    by (apply Z.rem_bound_pos_neg; lia).
  assert (0 ≤ P * Z.quot (TransactedCoinAmt m) P)
    by (apply Z.mul_nonneg_nonneg; lia).
  lia.
Qed.

(** ** Runs that match every order at most once *)

Lemma forRange_settleFill_once (l : list (Direction * MatchResult))
    (st st' : Settlement) (dm : Direction * MatchResult) :
  forRange settleFill st l = Ok st' →
  NoDup ((BatchMsg ∘ snd) <$> l) →
  dm ∈ l →
  ∃ s s' msg1 msg2,
    heap st !! BatchMsg dm.2 = Some s
    ∧ settleOrder msg1 msg2 s dm.2 = Ok s'
    ∧ heap st' !! BatchMsg dm.2 = Some s'.
Proof.
  revert st. induction l as [|[d m] l IH]; intros st H Hnd Hin;
    [by apply elem_of_nil in Hin|].
  simpl in H. apply bind_Ok in H as (st1 & H1 & H).
  apply NoDup_cons in Hnd as [Hnotin Hnd].
  apply settleFill_Ok in H1 as (s & s' & m1 & m2 & Hs & Ho & Hh).
  simpl in *. apply elem_of_cons in Hin as [->|Hin].
  - exists s, s', m1, m2. split_and!; try done. simpl.
    apply forRange_settleFill_heap in H as (_ & Hframe & _).
    rewrite (Hframe _ Hnotin), Hh.
    apply list_lookup_insert_eq. by eapply lookup_lt_Some.
  - destruct (IH st1 H Hnd Hin) as (s0 & s0' & n1 & n2 & Hs0 & Ho0 & Hs0').
    exists s0, s0', n1, n2. split_and!; try done.
    rewrite Hh, list_lookup_insert_ne in Hs0; [done|].
    intros Heq. apply Hnotin. apply list_elem_of_fmap. by exists dm.
Qed.

(** X8. When no two match results point to the same order, a run of
    [UpdateState] that returns leaves each matched order in the state of
    the one iteration on its state before the run: succeeded, to be
    deleted exactly when its branch on that state is not the fractional
    one, with the truncated transacted amount added to the exchanged
    offer and, in the full and off-by-one branches, a zero remaining
    offer and at most one unit of reserved fee. *)
Theorem UpdateState_matched_once (X Y : Z) (XtoY YtoX : list ptr)
    (mX mY : list MatchResult) (h : Heap) (u : Updated) (m : MatchResult) :
  UpdateState X Y XtoY YtoX mX mY h = Ok u →
  NoDup (BatchMsg <$> (mX ++ mY)) →
  m ∈ mX ++ mY →
  ∃ s s',
    h !! BatchMsg m = Some s
    ∧ uHeap u !! BatchMsg m = Some s'
    ∧ Succeeded s' = true
    ∧ ToBeDeleted s'
      = match classify s m with FractionalMatch => false | _ => true end
    ∧ ExchangedOfferCoin s'
      = mkCoin (Denom (ExchangedOfferCoin s))
          (Amount (ExchangedOfferCoin s)
           + TruncateInt (TransactedCoinAmt m))
    ∧ (classify s m ≠ FractionalMatch →
       Amount (RemainingOfferCoin s') = 0
       ∧ Amount (ReservedOfferCoinFee s') ≤ 1
       ∧ conserves s')
    ∧ sameOrder s s'.
Proof.
  intros H Hnd Hm. apply UpdateState_fills in H as (st & H & -> & _).
  rewrite <- fillsInOrder_ptrs in Hnd.
  apply elem_of_fillsInOrder in Hm as [d Hm].
  destruct (forRange_settleFill_once _ _ _ _ H Hnd Hm)
    as (s & s' & m1 & m2 & Hs & Ho & Hs'). simpl in *.
  exists s, s'.
  pose proof (settleOrder_Ok _ _ _ _ _ Ho) as (_ & ? & ? & ? & _ & Hsame).
  split_and!; try done.
  intros Hc. unfold settleOrder, conserves in *.
  destruct Hsame as (_ & _ & _ & HMsg & _). rewrite HMsg.
  destruct (classify s m); [| |done].
  - apply fullMatch_Ok in Ho as (_ & _ & Hsum & Hrem & Hfee).
    rewrite Hrem in *. simpl in *. split_and!; [done | lia | done].
  - apply offByOneMatch_Ok in Ho as (_ & _ & Hsum & Hrem & Hfee).
    rewrite Hrem in *. simpl in *. split_and!; [done | lia | done].
Qed.

Lemma countClass_cons (h : Heap) (c : MatchClass) (m : MatchResult)
    (ms : list MatchResult) :
  countClass h c (m :: ms)
  = (if decide (classAt h m = Some c) then 1 else 0) + countClass h c ms.
Proof.
  unfold countClass. rewrite filter_cons.
  destruct (decide (classAt h m = Some c)); simpl; lia.
Qed.

Lemma countClass_ext (h1 h2 : Heap) (c : MatchClass)
    (ms : list MatchResult) :
  (∀ m, m ∈ ms → h1 !! BatchMsg m = h2 !! BatchMsg m) →
  countClass h1 c ms = countClass h2 c ms.
Proof.
  induction ms as [|m ms IH]; intros Hext; [done|].
  rewrite !countClass_cons, IH.
  - unfold classAt. rewrite (Hext m) by left. done.
  - intros m' Hm'. apply Hext. by right.
Qed.

Lemma decimalErrorOf_count (h : Heap) (m : MatchResult) (s : SwapMsgState) :
  h !! BatchMsg m = Some s →
  decimalErrorOf (classify s m)
  = OneDec * (if decide (classAt h m = Some OffByOneDecimal) then 1 else 0)
  ∧ fractionalCntOf (classify s m)
    = (if decide (classAt h m = Some FractionalMatch) then 1 else 0).
Proof.
  intros Hs. unfold classAt. rewrite Hs. simpl.
  destruct (classify s m); split; simpl;
    repeat case_decide; simplify_eq; lia.
Qed.

Lemma insert_other_fills (h : Heap) (p : ptr) (s : SwapMsgState)
    (ms : list MatchResult) :
  p ∉ BatchMsg <$> ms →
  ∀ m, m ∈ ms → <[p := s]> h !! BatchMsg m = h !! BatchMsg m.
Proof.
  intros Hnotin m Hm. apply list_lookup_insert_ne. intros ->.
  apply Hnotin. apply list_elem_of_fmap. by exists m.
Qed.

Lemma forRange_settleXtoY_counts (ms : list MatchResult)
    (st st' : Settlement) :
  forRange settleXtoY st ms = Ok st' →
  NoDup (BatchMsg <$> ms) →
  decimalErrorX st'
  = decimalErrorX st + OneDec * countClass (heap st) OffByOneDecimal ms
  ∧ fractionalCntX st'
    = fractionalCntX st + countClass (heap st) FractionalMatch ms
  ∧ decimalErrorY st' = decimalErrorY st
  ∧ fractionalCntY st' = fractionalCntY st
  ∧ ∀ p, p ∉ BatchMsg <$> ms → heap st' !! p = heap st !! p.
Proof.
  revert st. induction ms as [|m ms IH]; intros st H Hnd; simpl in H.
  - injection H as <-. unfold countClass. simpl. split_and!; try lia. done.
  - apply bind_Ok in H as (st1 & H1 & H).
    apply NoDup_cons in Hnd as [Hnotin Hnd].
    apply settleXtoY_Ok in H1
      as (s & s' & Hs & _ & Hh & _ & _ & Hex & Hey & Hfx & Hfy).
    apply IH in H as (Hex' & Hfx' & Hey' & Hfy' & Hframe); [|done].
    destruct (decimalErrorOf_count _ _ _ Hs) as [Hd Hf].
    rewrite !countClass_cons.
    rewrite (countClass_ext (heap st1) (heap st)) in Hex', Hfx'
      by (rewrite Hh; by apply insert_other_fills).
    split_and!; try lia.
    intros p Hp. apply not_elem_of_cons in Hp as [Hne Hp].
    rewrite (Hframe p Hp), Hh. by apply list_lookup_insert_ne.
Qed.

Lemma forRange_settleYtoX_counts (ms : list MatchResult)
    (st st' : Settlement) :
  forRange settleYtoX st ms = Ok st' →
  NoDup (BatchMsg <$> ms) →
  decimalErrorY st'
  = decimalErrorY st + OneDec * countClass (heap st) OffByOneDecimal ms
  ∧ fractionalCntY st'
    = fractionalCntY st + countClass (heap st) FractionalMatch ms
  ∧ decimalErrorX st' = decimalErrorX st
  ∧ fractionalCntX st' = fractionalCntX st.
Proof.
  revert st. induction ms as [|m ms IH]; intros st H Hnd; simpl in H.
  - injection H as <-. unfold countClass. simpl. split_and!; lia.
  - apply bind_Ok in H as (st1 & H1 & H).
    apply NoDup_cons in Hnd as [Hnotin Hnd].
    apply settleYtoX_Ok in H1
      as (s & s' & Hs & _ & Hh & _ & _ & Hex & Hey & Hfx & Hfy).
    apply IH in H as (Hey' & Hfy' & Hex' & Hfx'); [|done].
    destruct (decimalErrorOf_count _ _ _ Hs) as [Hd Hf].
    rewrite !countClass_cons.
    rewrite (countClass_ext (heap st1) (heap st)) in Hey', Hfy'
      by (rewrite Hh; by apply insert_other_fills).
    split_and!; lia.
Qed.

(** X9. When no two match results point to the same order, the counters
    [UpdateState] returns count the branches the match results take on the
    order states before the run: the decimal error of a side is one per
    off-by-one fill of that side, and its fractional count is the number
    of its fractional fills. *)
Theorem UpdateState_counters (X Y : Z) (XtoY YtoX : list ptr)
    (mX mY : list MatchResult) (h : Heap) (u : Updated) :
  UpdateState X Y XtoY YtoX mX mY h = Ok u →
  NoDup (BatchMsg <$> (mX ++ mY)) →
  uDecimalErrorX u = OneDec * countClass h OffByOneDecimal mX
  ∧ uDecimalErrorY u = OneDec * countClass h OffByOneDecimal mY
  ∧ uFractionalCntX u = countClass h FractionalMatch mX
  ∧ uFractionalCntY u = countClass h FractionalMatch mY.
Proof.
  intros H Hnd. rewrite fmap_app in Hnd.
  apply NoDup_app in Hnd as (HndX & Hdisj & HndY).
  apply UpdateState_Ok in H
    as (stX & stY & HX & HY & _ & _ & _ & -> & -> & -> & -> & _).
  apply forRange_settleXtoY_counts in HX
    as (HeX & HfX & HeY & HfY & Hframe); [|done].
  apply forRange_settleYtoX_counts in HY as (HeY' & HfY' & HeX' & HfX');
    [|done].
  rewrite (countClass_ext (heap stX) h) in HeY', HfY'.
  - simpl in *. unfold ZeroDec in *. split_and!; lia.
  - intros m Hm. rewrite Hframe; [done|]. intros Hin.
    apply (Hdisj (BatchMsg m)); [done|]. apply list_elem_of_fmap. by exists m.
  - intros m Hm. rewrite Hframe; [done|]. intros Hin.
    apply (Hdisj (BatchMsg m)); [done|]. apply list_elem_of_fmap. by exists m.
Qed.

(** * Further properties of [SwapExecution] *)

(** ** The index of the match results (lines 91-98) *)

Lemma forRange_indexMatch_map (l : list MatchResult)
    (mp0 mp : gmap N MatchResult) :
  forRange indexMatch mp0 l = Ok mp →
  (∀ m, m ∈ l → mp !! OrderMsgIndex m = Some m)
  ∧ (∀ i, i ∉ OrderMsgIndex <$> l → mp !! i = mp0 !! i)
  ∧ size mp = (size mp0 + length l)%nat.
Proof.
  revert mp0. induction l as [|m l IH]; intros mp0 H.
  - simpl in H. injection H as <-. split_and!; [|done|simpl; lia].
    intros m Hm. by apply elem_of_nil in Hm.
  - simpl in H. apply bind_Ok in H as (mp1 & H1 & H).
    unfold indexMatch in H1.
    destruct (mp0 !! OrderMsgIndex m) eqn:Hfresh; [done|].
    injection H1 as <-.
    pose proof (forRange_indexMatch_Ok _ _ _ H) as [_ Hnone].
    apply IH in H as (Hin & Hout & Hsize).
    assert (OrderMsgIndex m ∉ OrderMsgIndex <$> l) as Hnotin.
    { intros Hi. apply Hnone in Hi. by rewrite lookup_insert_eq in Hi. }
    split_and!.
    + intros m' Hm'. apply elem_of_cons in Hm' as [->|Hm']; [|by apply Hin].
      rewrite (Hout _ Hnotin). apply lookup_insert_eq.
    + intros i Hi. simpl in Hi. apply not_elem_of_cons in Hi as [Hne Hi].
      rewrite (Hout i Hi). by apply lookup_insert_ne.
    + rewrite Hsize, map_size_insert_None by done. simpl. lia.
Qed.

(** X10. When the loop of lines 93-98 does not panic, the map it has
    built holds every match result under its [OrderMsgIndex], holds
    nothing else, and has as many entries as there are match results; no
    two match results then share an index. *)
Theorem matchResultMap_indexes_matches (fills : list MatchResult)
    (matchResultMap : gmap N MatchResult) :
  forRange indexMatch ∅ fills = Ok matchResultMap →
  (∀ i m, matchResultMap !! i = Some m ↔ m ∈ fills ∧ OrderMsgIndex m = i)
  ∧ size matchResultMap = length fills
  ∧ NoDup (OrderMsgIndex <$> fills).
Proof.
  intros H. pose proof (forRange_indexMatch_Ok _ _ _ H) as [Hnd _].
  apply forRange_indexMatch_map in H as (Hin & Hout & Hsize).
  split_and!; [|by rewrite Hsize, map_size_empty|done].
  intros i m. split.
  - intros Hm.
    destruct (decide (i ∈ OrderMsgIndex <$> fills)) as [Hi|Hi].
    + apply list_elem_of_fmap in Hi as (m' & -> & Hm').
      rewrite (Hin m' Hm') in Hm. by injection Hm as <-.
    + rewrite (Hout i Hi), lookup_empty in Hm. done.
  - intros [Hm <-]. by apply Hin.
Qed.

Section SwapExecutionReturns.
Context `{K : Collaborators}.

(** X11. [SwapExecution] returns in three ways only: with [(0, nil)] and
    the store untouched when no message is loaded; with
    [(0, ErrPoolNotExists)] and the store untouched when messages are
    loaded and the pool is not found; and, when the pool is found, with a
    nil error and the number of loaded messages. *)
Theorem SwapExecution_returns (ctx ctx' : Ctx)
    (liquidityPoolBatch : PoolBatch) (n : N) (err : option error) :
  SwapExecution ctx liquidityPoolBatch = Ok (n, err, ctx') →
  let loaded :=
    GetAllNotProcessedPoolBatchSwapMsgStates ctx liquidityPoolBatch in
  let found := (GetPool ctx (PoolId liquidityPoolBatch)).2 in
  (loaded = [] ∧ n = 0%N ∧ err = None ∧ ctx' = ctx)
  ∨ (loaded ≠ [] ∧ found = false
     ∧ n = 0%N ∧ err = Some ErrPoolNotExists ∧ ctx' = ctx)
  ∨ (loaded ≠ [] ∧ found = true
     ∧ n = N.of_nat (length loaded) ∧ err = None).
Proof.
  intros H loaded found. unfold SwapExecution in H.
  apply bind_Ok in H as (r & Hr & H). destruct r as [n0 err0 c0|L].
  - injection H as -> -> ->. unfold swapMatching in Hr.
    fold loaded in Hr. subst found.
    destruct loaded as [|s0 l0] eqn:Hl; simpl in Hr.
    + injection Hr as <- <- <-. by left.
    + destruct (GetPool ctx (PoolId liquidityPoolBatch)) as [p f].
      destruct f; simpl in Hr.
      * repeat (first [apply bind_Ok in Hr as (? & _ & Hr) | case_match]);
          simplify_eq.
      * injection Hr as <- <- <-. right. left. by split_and!.
  - pose proof (swapMatching_Continue _ _ _ Hr)
      as (Hne & Hpool & _ & Hn & _).
    right. right. subst found. rewrite Hpool.
    assert (n = executedMsgCount L ∧ err = None) as [-> ->].
    { unfold swapSettlement in H.
      destruct (MatchType (batchResult L) =? 0);
        [by injection H as <- <- _|].
      repeat (first [apply bind_Ok in H as (? & _ & H) | case_match]);
        simplify_eq; done. }
    by split_and!.
Qed.

(** X12. Past the pool lookup, a pool with fewer than two reserve coins
    aborts [SwapExecution] with an index out of range, and a pool whose
    second reserve is zero aborts it with a division by zero: the pool
    price [X/Y] of line 38 is computed before anything is matched. *)
Theorem SwapExecution_needs_reserves (ctx : Ctx)
    (liquidityPoolBatch : PoolBatch) (p : Pool) (h : Heap) :
  let loaded :=
    GetAllNotProcessedPoolBatchSwapMsgStates ctx liquidityPoolBatch in
  let ctx1 :=
    SetPoolBatchSwapMsgStatesByPointer ctx (Id p)
      (setExecuted true <$> loaded) in
  loaded ≠ [] →
  GetPool ctx (PoolId liquidityPoolBatch) = (p, true) →
  ValidateStateAndExpireOrders (seq 0 (length loaded)) (BlockHeight ctx1)
    false (setExecuted true <$> loaded) = Ok h →
  ((length (GetReserveCoins ctx1 p) < 2)%nat →
   SwapExecution ctx liquidityPoolBatch
   = Panic (RuntimeError "index out of range"))
  ∧ (∀ r0 r1,
       GetReserveCoins ctx1 p !! 0%nat = Some r0 →
       GetReserveCoins ctx1 p !! 1%nat = Some r1 →
       Amount r1 = 0 →
       SwapExecution ctx liquidityPoolBatch
       = Panic (RuntimeError "division by zero")).
Proof.
  intros loaded ctx1 Hne Hpool Hval. subst loaded ctx1.
  assert ((length (GetAllNotProcessedPoolBatchSwapMsgStates ctx
                     liquidityPoolBatch) =? 0)%nat = false) as Hlen.
  { by destruct (GetAllNotProcessedPoolBatchSwapMsgStates ctx
                   liquidityPoolBatch). }
  unfold SwapExecution, swapMatching. cbv zeta.
  rewrite Hlen, Hpool. cbn [negb]. rewrite Hval. simpl. unfold index.
  split.
  - intros Hshort.
    destruct (GetReserveCoins _ p) as [|r0 [|r1 rest]]; simpl in *;
      [done | done | lia].
  - intros r0 r1 H0 H1 Hzero. rewrite H0, H1. simpl.
    unfold DecQuo, ToDec. by rewrite Hzero.
Qed.

(** X13. A batch that is settled and returns has passed every check on
    the way: [UpdateState] returned, the rebuilt order book validated at
    the last price [X'/Y'], no two match results shared an index, and
    [TransactAndRefundSwapLiquidityPool], called on the store of line 28
    with the index of the match results, returned a nil error; the store
    returned is the one it left. *)
Theorem SwapExecution_settled (ctx ctx' : Ctx)
    (liquidityPoolBatch : PoolBatch) (L : Matched Ctx Pool) (n : N)
    (err : option error) :
  swapMatching ctx liquidityPoolBatch = Ok (Continue L) →
  MatchType (batchResult L) ≠ 0 →
  SwapExecution ctx liquidityPoolBatch = Ok (n, err, ctx') →
  ∃ u lastPrice orderBookExecuted h matchResultMap,
    UpdateState (X L) (Y L) (XtoY L) (YtoX L) (matchResultXtoY L)
      (matchResultYtoX L) (heap1 L) = Ok u
    ∧ DecQuo (uX u) (uY u) = Ok lastPrice
    ∧ (∃ h', executedOrderBook L u = Ok (orderBookExecuted, h'))
    ∧ Validate orderBookExecuted lastPrice = true
    ∧ forRange indexMatch ∅ (matchResultXtoY L ++ matchResultYtoX L)
      = Ok matchResultMap
    ∧ TransactAndRefundSwapLiquidityPool (ctx1 L) (swapMsgStates L)
        matchResultMap (pool L) (batchResult L) h = Ok (ctx', None)
    ∧ n = executedMsgCount L
    ∧ err = None.
Proof.
  intros HL Hexec H. unfold SwapExecution in H. rewrite HL in H.
  simpl in H. unfold swapSettlement in H.
  destruct (Z.eqb_spec (MatchType (batchResult L)) 0) as [|_]; [done|].
  apply bind_Ok in H as (u & Hu & H).
  apply bind_Ok in H as (lastPrice & Hprice & H).
  apply bind_Ok in H as (_ & _ & H).
  apply bind_Ok in H as ([ob h'] & Hob & H).
  destruct (Validate ob lastPrice) eqn:Hval; simpl in H; [|done].
  apply bind_Ok in H as (h1 & _ & H). apply bind_Ok in H as (h2 & _ & H).
  apply bind_Ok in H as (mp & Hmp & H).
  apply bind_Ok in H as (_ & _ & H).
  apply bind_Ok in H as ([c e] & Htx & H).
  destruct e as [e|]; [done|]. injection H as <- <- <-.
  exists u, lastPrice, ob, h2, mp. split_and!; try done. by exists h'.
Qed.

End SwapExecutionReturns.

Section SwapExecutionNoFills.
Context `{K : Collaborators}.

Lemma swapMatching_price (ctx : Ctx) (liquidityPoolBatch : PoolBatch)
    (L : Matched Ctx Pool) :
  swapMatching ctx liquidityPoolBatch = Ok (Continue L) →
  DecQuo (X L) (Y L) = Ok (currentPoolPrice L).
Proof.
  unfold swapMatching. intros H.
  destruct (length _ =? 0)%nat; [done|].
  destruct (GetPool ctx (PoolId liquidityPoolBatch)) as [p found].
  destruct found; simpl in H; [|done].
  apply bind_Ok in H as (h & Hh & H).
  apply bind_Ok in H as (r0 & Hr0 & H).
  apply bind_Ok in H as (r1 & Hr1 & H).
  apply bind_Ok in H as (price & Hprice & H).
  apply bind_Ok in H as ([[om xy] yx] & Hom & H).
  apply bind_Ok in H as (result & Hres & H).
  apply bind_Ok in H as ([[[mX mY] dx] dy] & Hfind & H).
  by injection H as <-.
Qed.

(** X14. When price discovery answers [types.NoMatch], the matcher is
    not called: the batch has no fill and zero pool deltas.  If such a
    batch goes on to settlement, [UpdateState] leaves the reserves, the
    order states and the counters as they are, and the last price is the
    pool price of before. *)
Theorem SwapExecution_no_fills (ctx : Ctx) (liquidityPoolBatch : PoolBatch)
    (L : Matched Ctx Pool) :
  swapMatching ctx liquidityPoolBatch = Ok (Continue L) →
  MatchType (batchResult L) = NoMatch →
  matchResultXtoY L = []
  ∧ matchResultYtoX L = []
  ∧ poolXdelta1 L = 0
  ∧ poolYdelta1 L = 0
  ∧ ∀ u,
      UpdateState (X L) (Y L) (XtoY L) (YtoX L) (matchResultXtoY L)
        (matchResultYtoX L) (heap1 L) = Ok u →
      uX u = X L ∧ uY u = Y L
      ∧ uPoolXdelta u = 0 ∧ uPoolYdelta u = 0
      ∧ uDecimalErrorX u = 0 ∧ uDecimalErrorY u = 0
      ∧ uFractionalCntX u = 0 ∧ uFractionalCntY u = 0
      ∧ uHeap u = heap1 L
      ∧ DecQuo (uX u) (uY u) = Ok (currentPoolPrice L).
Proof.
  intros HL Hno. pose proof (swapMatching_price _ _ _ HL) as Hprice.
  apply swapMatching_Continue in HL as (_ & _ & _ & _ & _ & _ & _ & Hfind).
  unfold findOrderMatches in Hfind. rewrite Hno, Z.eqb_refl in Hfind.
  simpl in Hfind. injection Hfind as <- <- <- <-.
  split_and!; try done.
  intros u Hu. apply UpdateState_Ok in Hu
    as (stX & stY & HX & HY & _ & _ & Hh & HeX & HeY & HfX & HfY & HdX & HdY
        & HuX & HuY).
  simpl in HX. injection HX as <-. simpl in HY. injection HY as <-.
  simpl in *. unfold ZeroDec in *.
  assert (uX u = X L) as HX' by lia. assert (uY u = Y L) as HY' by lia.
  rewrite HX', HY'. split_and!; try done; lia.
Qed.

End SwapExecutionNoFills.

(** * Runs of the further properties *)

Module MoreRuns.
Import InMemory.

(** The ladder with the XtoY slice in the order of the heap: the two
    orders at 3 come first, in their order, and the order at 1 last. *)
Lemma UpdateState_sorts_orders_witness :
  ∃ u,
    UpdateState (dec 1000) (dec 1000) [0; 1; 2]%nat [3%nat] [] [] ladder
    = Ok u
    ∧ uXtoY u = [1; 2; 0]%nat
    ∧ uXtoY u ≡ₚ [0; 1; 2]%nat.
Proof.
  assert (∃ u, UpdateState (dec 1000) (dec 1000) [0; 1; 2]%nat [3%nat] [] []
                 ladder = Ok u ∧ uXtoY u = [1; 2; 0]%nat)
    as (u & Hu & Hs) by (eexists; split; vm_compute; reflexivity).
  exists u. split_and!; [exact Hu | exact Hs |].
  exact (proj1 (UpdateState_sorts_orders _ _ _ _ _ _ _ _ Hu)).
Defined.

Lemma UpdateState_sorts_stably_witness :
  ∃ u,
    UpdateState (dec 1000) (dec 1000) [0; 1; 2]%nat [3%nat] [] [] ladder
    = Ok u
    ∧ filter (λ p, orderPriceAt ladder p = Some (dec 3)) (uXtoY u)
      = [1; 2]%nat.
Proof.
  assert (∃ u, UpdateState (dec 1000) (dec 1000) [0; 1; 2]%nat [3%nat] [] []
                 ladder = Ok u)
    as (u & Hu) by (eexists; vm_compute; reflexivity).
  exists u. split; [exact Hu|].
  rewrite (proj1 (UpdateState_sorts_stably _ _ _ _ _ _ _ _ (dec 3) Hu)).
  reflexivity.
Defined.

(** A fractional fill of 200 on the first order of the ladder. *)
Lemma UpdateState_iteration_witness :
  ∃ st' s',
    settleXtoY (initSettlement ladder) (fillAt 0 200) = Ok st'
    ∧ heap st' !! 0%nat = Some s'
    ∧ Succeeded s' = true
    ∧ ToBeDeleted s' = false
    ∧ ExchangedOfferCoin s' = mkCoin "denomx" 200.
Proof.
  assert (∃ st', settleXtoY (initSettlement ladder) (fillAt 0 200) = Ok st')
    as [st' Hst] by (eexists; vm_compute; reflexivity).
  destruct (UpdateState_iteration DirectionXtoY (initSettlement ladder) st'
              (fillAt 0 200)
              (setExecuted true (order 1 "denomx" "denomy" 500 500 0 1
                                   (dec 1))) eq_refl Hst)
    as (s' & _ & Hs' & _ & Hsucc & Hdel & Hex & _).
  exists st', s'. split_and!; [exact Hst | exact Hs' | exact Hsucc | | ].
  - rewrite Hdel. reflexivity.
  - rewrite Hex. reflexivity.
Defined.

(** A full fill of the first order of the ladder. *)
Lemma UpdateState_whole_fill_accepted_witness :
  ∃ st',
    settleXtoY (initSettlement ladder) (fillAt 0 500) = Ok st'
    ∧ 0 + TruncateInt (dec 500) ≤ 500.
Proof.
  assert (∃ st', settleXtoY (initSettlement ladder) (fillAt 0 500) = Ok st')
    as [st' Hst] by (eexists; vm_compute; reflexivity).
  exists st'. split; [exact Hst|].
  refine (proj1 (UpdateState_whole_fill_accepted DirectionXtoY
                   (initSettlement ladder) st' (fillAt 0 500)
                   (setExecuted true (order 1 "denomx" "denomy" 500 500 0 1
                                        (dec 1))) eq_refl _ Hst)).
  by vm_compute.
Defined.

(** The run of the ladder with a fractional fill of the first order, an
    off-by-one fill of the second and a full fill of the fourth. *)
Lemma ladder_run :
  ∃ u, UpdateState (dec 1000) (dec 1000) [0; 1; 2]%nat [3%nat]
         [fillAt 0 200; fillAt 1 499] [fillAt 3 500] ladder = Ok u.
Proof. eexists. vm_compute. reflexivity. Defined.

Lemma UpdateState_frame_witness :
  ∃ u, UpdateState (dec 1000) (dec 1000) [0; 1; 2]%nat [3%nat]
         [fillAt 0 200; fillAt 1 499] [fillAt 3 500] ladder = Ok u
       ∧ length (uHeap u) = 4%nat
       ∧ uHeap u !! 2%nat = ladder !! 2%nat.
Proof.
  destruct ladder_run as [u Hu]. exists u.
  destruct (UpdateState_frame _ _ _ _ _ _ _ _ Hu) as [Hlen Hframe].
  split_and!; [exact Hu | exact Hlen |].
  apply Hframe. clear. simpl. rewrite !not_elem_of_cons.
  split_and!; [lia | lia | lia | apply not_elem_of_nil].
Defined.

Lemma UpdateState_keeps_orders_witness :
  ∃ u s',
    UpdateState (dec 1000) (dec 1000) [0; 1; 2]%nat [3%nat]
      [fillAt 0 200; fillAt 1 499] [fillAt 3 500] ladder = Ok u
    ∧ uHeap u !! 1%nat = Some s'
    ∧ MsgIndex s' = 2%N
    ∧ Executed s' = true.
Proof.
  destruct ladder_run as [u Hu].
  destruct (UpdateState_keeps_orders _ _ _ _ _ _ _ _ 1%nat
              (setExecuted true (order 2 "denomx" "denomy" 500 500 0 1
                                   (dec 3))) Hu eq_refl)
    as (s' & Hs' & Hi & He & _).
  exists u, s'.
  split_and!; [exact Hu | exact Hs' | exact Hi | exact He].
Defined.

Lemma UpdateState_needs_orders_witness :
  ∃ u,
    UpdateState (dec 1000) (dec 1000) [0; 1; 2]%nat [3%nat]
      [fillAt 0 200; fillAt 1 499] [fillAt 3 500] ladder = Ok u
    ∧ is_Some (ladder !! 3%nat)
    ∧ - OneDec < dec 500.
Proof.
  destruct ladder_run as [u Hu]. exists u. split; [exact Hu|].
  apply (UpdateState_needs_orders _ _ _ _ _ _ _ _ (fillAt 3 500) Hu).
  apply elem_of_app. right. apply list_elem_of_singleton. reflexivity.
Defined.

Lemma ladder_NoDup :
  NoDup (BatchMsg <$> [fillAt 0 200; fillAt 1 499] ++ [fillAt 3 500]).
Proof.
  simpl. repeat (constructor; [rewrite ?not_elem_of_cons;
                               split_and?; try done; apply not_elem_of_nil|]).
  constructor.
Defined.

(** The off-by-one fill of the second order of the ladder leaves it
    succeeded, to be deleted, with 499 exchanged and nothing remaining. *)
Lemma UpdateState_matched_once_witness :
  ∃ u s',
    UpdateState (dec 1000) (dec 1000) [0; 1; 2]%nat [3%nat]
      [fillAt 0 200; fillAt 1 499] [fillAt 3 500] ladder = Ok u
    ∧ uHeap u !! 1%nat = Some s'
    ∧ Succeeded s' = true
    ∧ ToBeDeleted s' = true
    ∧ ExchangedOfferCoin s' = mkCoin "denomx" 499
    ∧ Amount (RemainingOfferCoin s') = 0.
Proof.
  destruct ladder_run as [u Hu].
  destruct (UpdateState_matched_once _ _ _ _ _ _ _ _ (fillAt 1 499) Hu
              ladder_NoDup)
    as (s & s' & Hs & Hs' & Hsucc & Hdel & Hex & Hwhole & _).
  { apply elem_of_app. left. right. left. }
  vm_compute in Hs. injection Hs as <-.
  exists u, s'. split_and!; [exact Hu | exact Hs' | exact Hsucc | | |].
  - rewrite Hdel. reflexivity.
  - rewrite Hex. reflexivity.
  - apply Hwhole. clear. intros Hc. vm_compute in Hc. discriminate Hc.
Defined.

Lemma UpdateState_counters_witness :
  ∃ u,
    UpdateState (dec 1000) (dec 1000) [0; 1; 2]%nat [3%nat]
      [fillAt 0 200; fillAt 1 499] [fillAt 3 500] ladder = Ok u
    ∧ uDecimalErrorX u = OneDec
    ∧ uDecimalErrorY u = 0
    ∧ uFractionalCntX u = 1
    ∧ uFractionalCntY u = 0.
Proof.
  destruct ladder_run as [u Hu].
  destruct (UpdateState_counters _ _ _ _ _ _ _ _ Hu ladder_NoDup)
    as (HeX & HeY & HfX & HfY).
  exists u. split_and!; [exact Hu | | | |].
  - rewrite HeX. reflexivity.
  - rewrite HeY. reflexivity.
  - rewrite HfX. reflexivity.
  - rewrite HfY. reflexivity.
Defined.

Lemma UpdateState_conserves_heap_witness :
  ∃ u,
    UpdateState (dec 1000) (dec 1000) [0; 1; 2]%nat [3%nat]
      [fillAt 0 200; fillAt 1 499] [fillAt 3 500] ladder = Ok u
    ∧ Forall conserves (uHeap u).
Proof.
  destruct ladder_run as [u Hu]. exists u. split; [exact Hu|].
  apply (UpdateState_conserves_heap _ _ _ _ _ _ _ _ Hu ladder_NoDup);
    clear.
  - unfold ladder. rewrite Forall_fmap.
    repeat (constructor; [vm_compute; discriminate|]). constructor.
  - intros m s Hm Hs.
    repeat (apply elem_of_cons in Hm as [->|Hm];
            [vm_compute in Hs; injection Hs as <-; vm_compute; discriminate|]).
    apply elem_of_nil in Hm. destruct Hm.
Defined.

Lemma matchResultMap_indexes_matches_witness :
  ∃ mp,
    forRange indexMatch ∅ [fillAt 0 200; fillAt 1 499; fillAt 3 500]
    = Ok mp
    ∧ mp !! 2%N = Some (fillAt 1 499)
    ∧ size mp = 3%nat.
Proof.
  assert (∃ mp, forRange indexMatch ∅
                  [fillAt 0 200; fillAt 1 499; fillAt 3 500] = Ok mp)
    as [mp Hmp] by (eexists; vm_compute; reflexivity).
  destruct (matchResultMap_indexes_matches _ _ Hmp) as (Hiff & Hsize & _).
  exists mp. split_and!; [exact Hmp | | exact Hsize].
  apply Hiff. split; [|reflexivity]. right. left.
Defined.

(** The crossing batch returns its two messages. *)
Lemma SwapExecution_returns_witness :
  ∃ ctx', SwapExecution crossing 1%N = Ok (2%N, None, ctx').
Proof.
  assert (∃ n err ctx', SwapExecution crossing 1%N = Ok (n, err, ctx'))
    as (n & err & ctx' & H) by (do 3 eexists; vm_compute; reflexivity).
  destruct (SwapExecution_returns (K := keeper) crossing ctx' 1%N n err H)
    as [(Hnil & _)|[(_ & Hfound & _)|(_ & _ & -> & ->)]].
  - vm_compute in Hnil. discriminate Hnil.
  - vm_compute in Hfound. discriminate Hfound.
  - exists ctx'. exact H.
Defined.

(** The drained pool aborts the batch with a division by zero. *)
Lemma SwapExecution_needs_reserves_witness :
  SwapExecution drained 1%N = Panic (RuntimeError "division by zero").
Proof.
  refine (proj2 (SwapExecution_needs_reserves (K := keeper) drained 1%N 1%N
                   (setExecuted true <$> states drained) _ _ _)
            (mkCoin "denomx" 1000000) (mkCoin "denomy" 0) _ _ _).
  - by vm_compute.
  - reflexivity.
  - reflexivity.
  - reflexivity.
  - reflexivity.
  - reflexivity.
Defined.

(** The crossing batch is settled: its two fills are indexed and the
    rebuilt order book validates. *)
Lemma SwapExecution_settled_witness :
  ∃ L mp,
    swapMatching crossing 1%N = Ok (Continue L)
    ∧ forRange indexMatch ∅ (matchResultXtoY L ++ matchResultYtoX L) = Ok mp
    ∧ size mp = 2%nat.
Proof.
  assert (∃ L, swapMatching crossing 1%N = Ok (Continue L)
               ∧ MatchType (batchResult L) ≠ 0
               ∧ length (matchResultXtoY L ++ matchResultYtoX L) = 2%nat)
    as (L & HL & Hexec & Hlen).
  { eexists. split; [vm_compute; reflexivity|]. split; [by vm_compute|].
    reflexivity. }
  assert (∃ n err ctx', SwapExecution crossing 1%N = Ok (n, err, ctx'))
    as (n & err & ctx' & H) by (do 3 eexists; vm_compute; reflexivity).
  destruct (SwapExecution_settled (K := keeper) crossing ctx' 1%N L n err
              HL Hexec H)
    as (u & price & ob & h & mp & _ & _ & _ & _ & Hmp & _).
  exists L, mp. split_and!; [exact HL | exact Hmp |].
  destruct (forRange_indexMatch_map _ _ _ Hmp) as (_ & _ & ->).
  rewrite map_size_empty. exact Hlen.
Defined.

(** The batch whose order is out of limit has no fill. *)
Lemma SwapExecution_no_fills_witness :
  ∃ L,
    swapMatching apart 1%N = Ok (Continue L)
    ∧ matchResultXtoY L = []
    ∧ matchResultYtoX L = [].
Proof.
  assert (∃ L, swapMatching apart 1%N = Ok (Continue L)
               ∧ MatchType (batchResult L) = NoMatch) as (L & HL & Hno).
  { eexists. split; [vm_compute; reflexivity | reflexivity]. }
  destruct (SwapExecution_no_fills (K := keeper) apart 1%N L HL Hno)
    as (HX & HY & _).
  exists L. split_and!; [exact HL | exact HX | exact HY].
Defined.

End MoreRuns.
